(** * M/M/k queue simulator: a shallow embedding of [MMQueueSimulator]

    The notebook [simulation-hw3.ipynb] defines one class, [MMQueueSimulator],
    whose method [run_simulation] draws exponential interarrival and service
    times from numpy's global generator, replays the customers against a pool
    of [servers] next-free-times and returns a dictionary of metrics, and a
    function [run_mm1_mm2_simulations] that runs it on four scenarios.

    The embedding follows the method line by line.  Python exceptions are an
    [outcome]; numpy's global generator is threaded as explicit state.  The
    arithmetic of the method is kept behind the interface [Num], with two
    instances: IEEE binary64 (what numpy computes with, here the primitive
    floats of the Standard Library) and exact rationals (the arithmetic the
    queueing-theory reading of the method has in mind).

    Statements that only depend on the control flow are proved for every
    instance.  Statements about the order of times are proved from laws
    that both instances satisfy; for binary64 the laws are derived from the
    Standard Library's specification of the primitive operations.
    Statements that need arithmetic without rounding are proved for the
    rationals, and refuted on binary64 by evaluation. *)

From Stdlib Require Import ZArith QArith Qcanon Lia.
From Stdlib Require Import Floats.PrimFloat.
From Stdlib Require Floats.SpecFloat Floats.FloatOps Floats.FloatAxioms.
From stdpp Require Import base list strings gmap.

(** ** Python exceptions *)

Inductive exn : Set :=
  | ZeroDivisionError   (* float division by zero *)
  | ValueError          (* numpy: bad scale, negative size, argmin of [] *)
  | IndexError          (* indexing past the end *)
  | OverflowError.      (* int too large to convert to float *)

Inductive outcome (A : Type) : Type :=
  | Return (a : A)
  | Raise (e : exn).
Arguments Return {A} a.
Arguments Raise {A} e.

Global Instance outcome_ret : MRet outcome := λ A, Return.
Global Instance outcome_bind : MBind outcome := λ A B f m,
  match m with Return a => f a | Raise e => Raise e end.

(** ** The arithmetic the method uses

    [num_zero] and [num_one] are the values of the int literals [0] and [1]
    once they meet a float; [of_int] is Python's int-to-float conversion
    ([None] stands for its OverflowError).  [num_is_nan] and [num_signbit]
    are what [np.argmin] and numpy's parameter check look at. *)

Class Num (T : Type) := {
  num_zero : T;
  num_one : T;
  num_add : T → T → T;
  num_sub : T → T → T;
  num_mul : T → T → T;
  num_div : T → T → T;
  num_ltb : T → T → bool;
  num_leb : T → T → bool;
  num_eqb : T → T → bool;
  num_is_nan : T → bool;
  num_signbit : T → bool;
  of_int : Z → option T
}.

Declare Scope num_scope.
Delimit Scope num_scope with num.
Notation "x + y" := (num_add x y) : num_scope.
Notation "x - y" := (num_sub x y) : num_scope.
Notation "x * y" := (num_mul x y) : num_scope.
Notation "x / y" := (num_div x y) : num_scope.
Notation "x <? y" := (num_ltb x y) : num_scope.
Notation "x <=? y" := (num_leb x y) : num_scope.
Notation "x =? y" := (num_eqb x y) : num_scope.

(** *** IEEE binary64 *)

Module Float64.
Import Floats.SpecFloat Floats.FloatOps.

(** Python's [float(n)]: the nearest binary64 value, ties to even;
    OverflowError when [n] is out of range. *)
Definition float_of_int (n : Z) : option float :=
  let f := SF2Prim (binary_normalize prec emax n 0 false) in
  if PrimFloat.is_infinity f then None else Some f.

Global Instance float_num : Num float := {|
  num_zero := PrimFloat.zero;
  num_one := PrimFloat.one;
  num_add := PrimFloat.add;
  num_sub := PrimFloat.sub;
  num_mul := PrimFloat.mul;
  num_div := PrimFloat.div;
  num_ltb := PrimFloat.ltb;
  num_leb := PrimFloat.leb;
  num_eqb := PrimFloat.eqb;
  num_is_nan := PrimFloat.is_nan;
  num_signbit := PrimFloat.get_sign;
  of_int := float_of_int
|}.

(** Notions on the Standard Library's specification of binary64
    ([spec_float]), used to derive the laws of the arithmetic from it.
    [key] maps every value but NaN to a triple whose lexicographic order
    [lex_le] is the order of the values. *)
Definition key (x : spec_float) : Z * Z * Z :=
  match x with
  | S754_nan => (0, 0, 0)
  | S754_infinity true => (-2, 0, 0)
  | S754_infinity false => (2, 0, 0)
  | S754_zero _ => (0, 0, 0)
  | S754_finite false m e => (1, e, Zpos m)
  | S754_finite true m e => (-1, - e, Zneg m)
  end%Z.

Definition lex_le (a b : Z * Z * Z) : Prop :=
  let '(a1, a2, a3) := a in
  let '(b1, b2, b3) := b in
  (a1 < b1 ∨ (a1 = b1 ∧ (a2 < b2 ∨ (a2 = b2 ∧ a3 ≤ b3))))%Z.

(** Zero, or above it. *)
Definition SFnonneg (x : spec_float) : Prop := SFleb (S754_zero false) x = true.

(** Not NaN, and with sign bit [sx]. *)
Definition has_sign (sx : bool) (x : spec_float) : Prop :=
  match x with
  | S754_zero s | S754_infinity s | S754_finite s _ _ => s = sx
  | S754_nan => False
  end.

End Float64.

(** *** Exact rationals *)

Module Rational.
Definition Qc_ltb (x y : Qc) : bool := negb (Qle_bool y x).
Definition Qc_leb (x y : Qc) : bool := Qle_bool x y.
Definition Qc_eqb (x y : Qc) : bool := Qeq_bool x y.

Global Instance Qc_num : Num Qc := {|
  num_zero := Q2Qc 0;
  num_one := Q2Qc 1;
  num_add := Qcplus;
  num_sub := Qcminus;
  num_mul := Qcmult;
  num_div := Qcdiv;
  num_ltb := Qc_ltb;
  num_leb := Qc_leb;
  num_eqb := Qc_eqb;
  num_is_nan := λ _, false;
  num_signbit := λ x, Qc_ltb x (Q2Qc 0);
  of_int := λ n, Some (Q2Qc (inject_Z n))
|}.
End Rational.

(** ** What is taken from numpy as given

    The Mersenne Twister behind [np.random] and the summation order of
    [np.mean] are not part of the notebook.  They enter as an interface:
    a generator state, what [np.random.seed] sets it to, what
    [np.random.exponential] draws from it, and the two means the method
    takes (of a list of ints and of a list of floats). *)

Class Numpy (T : Type) := {
  rng : Type;
  seed_state : Z → rng;
  exponential : T → nat → rng → list T * rng;
  mean : list T → T;
  mean_int : list Z → T
}.

(** A generator honours [size] when it returns that many samples. *)
Definition honours_size {T} (np : Numpy T) : Prop :=
  ∀ scale size g, length (exponential scale size g).1 = size.

Section Simulator.
Context {T : Type} `{Num T}.
Local Open Scope num_scope.

(** [a / b] on Python floats. *)
Definition truediv (a b : T) : outcome T :=
  if b =? num_zero then Raise ZeroDivisionError else Return (a / b).

(** [n * x] with [n] a Python int and [x] a float. *)
Definition int_mul (n : Z) (x : T) : outcome T :=
  match of_int n with
  | Some k => Return (k * x)
  | None => Raise OverflowError
  end.

(** [l[i]] for [0 <= i]. *)
Definition index {A} (l : list A) (i : nat) : outcome A :=
  match l !! i with
  | Some x => Return x
  | None => Raise IndexError
  end.

(** [np.cumsum]: a running sum, left to right. *)
Fixpoint cumsum_from (acc : T) (l : list T) : list T :=
  match l with
  | [] => []
  | x :: l' => let acc' := acc + x in acc' :: cumsum_from acc' l'
  end.

Definition cumsum (l : list T) : list T :=
  match l with
  | [] => []
  | x :: l' => x :: cumsum_from x l'
  end.

(** [np.argmin]: one scan that keeps the first smallest entry; the
    candidate is replaced when [entry >= candidate] fails, and the scan
    stops at a NaN candidate.  On an empty sequence it raises. *)
Fixpoint argmin_scan (mp : T) (min_ind : nat) (i : nat) (l : list T) : nat :=
  if num_is_nan mp then min_ind
  else match l with
       | [] => min_ind
       | x :: l' =>
           if negb (mp <=? x) then argmin_scan x i (S i) l'
           else argmin_scan mp min_ind (S i) l'
       end.

Definition argmin (l : list T) : outcome nat :=
  match l with
  | [] => Raise ValueError
  | x :: l' => Return (argmin_scan x 0%nat 1%nat l')
  end.

(** The variables the customer loop of [run_simulation] mutates. *)
Record LoopState := {
  departure_times : list T;
  queue_length : Z;
  queue_lengths : list Z;
  response_times : list T
}.

(** The state before the first customer: [[0] * servers], [0], [[]], [[]]. *)
Definition initial (servers : Z) : LoopState := {|
  departure_times := replicate (Z.to_nat servers) num_zero;
  queue_length := 0;
  queue_lengths := [];
  response_times := []
|}.

(** The body of [for i in range(self.total_customers)]. *)
Definition customer (arrival_times service_times : list T)
    (st : LoopState) (i : nat) : outcome LoopState :=
  arrival ← index arrival_times i;
  service ← index service_times i;
  next_free_server ← argmin (departure_times st);
  next_free_time ← index (departure_times st) next_free_server;
  let '(queue_length, start_service_time) :=
    if arrival <? next_free_time
    then ((queue_length st + 1)%Z, next_free_time)
    else (queue_length st, arrival) in
  let departure_time := start_service_time + service in
  let departure_times := <[next_free_server := departure_time]> (departure_times st) in
  let response_time := departure_time - arrival in
  let queue_lengths := queue_lengths st ++ [queue_length] in
  let response_times := response_times st ++ [response_time] in
  let queue_length :=
    if arrival <? next_free_time then (queue_length - 1)%Z else queue_length in
  Return {|
    departure_times := departure_times;
    queue_length := queue_length;
    queue_lengths := queue_lengths;
    response_times := response_times
  |}.

(** A [for] loop whose body may raise. *)
Fixpoint for_each {A S} (body : S → A → outcome S) (l : list A) (st : S) : outcome S :=
  match l with
  | [] => Return st
  | x :: l' => st' ← body st x; for_each body l' st'
  end.

(** The loop stopped after its first [m] iterations. *)
Definition after (arrival_times service_times : list T) (servers : Z)
    (m : nat) : outcome LoopState :=
  for_each (customer arrival_times service_times) (seq 0 m) (initial servers).

(** The whole loop, [range(total_customers)]. *)
Definition simulate (arrival_times service_times : list T)
    (servers total_customers : Z) : outcome LoopState :=
  after arrival_times service_times servers (Z.to_nat total_customers).

(** The object [__init__] builds and the dictionary [run_simulation] returns. *)
Record MMQueueSimulator := {
  arrival_rate : T;
  service_rate : T;
  servers : Z;
  total_customers : Z
}.

Definition init (arrival_rate service_rate : T) (servers : Z)
    (total_customers : option Z) : MMQueueSimulator := {|
  arrival_rate := arrival_rate;
  service_rate := service_rate;
  servers := servers;
  total_customers := default 10000%Z total_customers
|}.

Record Metrics := {
  average_queue_length : T;
  average_response_time : T;
  server_utilization : T;
  metrics_queue_lengths : list Z
}.

Context {np : Numpy T}.

(** Computations that read and write numpy's global generator. *)
Definition Rand (A : Type) : Type := rng → outcome A * rng.

Definition lift {A} (m : outcome A) : Rand A := λ g, (m, g).

Global Instance rand_bind : MBind Rand := λ A B f m g,
  match m g with
  | (Return a, g') => f a g'
  | (Raise e, g') => (Raise e, g')
  end.

(** [np.random.seed(s)] *)
Definition np_random_seed (s : Z) : Rand () := λ _, (Return (), seed_state s).

(** [np.random.exponential(scale, size)]: the parameter check, then the draw. *)
Definition np_random_exponential (scale : T) (size : Z) : Rand (list T) := λ g,
  if negb (num_is_nan scale) && num_signbit scale then (Raise ValueError, g)
  else if (size <? 0)%Z then (Raise ValueError, g)
  else let '(samples, g') := exponential scale (Z.to_nat size) g in
       (Return samples, g').

Definition run_simulation (self : MMQueueSimulator) : Rand Metrics :=
  np_random_seed 42;;
  arrival_scale ← lift (truediv num_one (arrival_rate self));
  interarrival_times ← np_random_exponential arrival_scale (total_customers self);
  service_scale ← lift (truediv num_one (service_rate self));
  service_times ← np_random_exponential service_scale (total_customers self);
  let arrival_times := cumsum interarrival_times in
  st ← lift (simulate arrival_times service_times
               (servers self) (total_customers self));
  let average_queue_length := mean_int (queue_lengths st) in
  let average_response_time := mean (response_times st) in
  capacity ← lift (int_mul (servers self) (service_rate self));
  server_utilization ← lift (truediv (arrival_rate self) capacity);
  lift (Return {|
    average_queue_length := average_queue_length;
    average_response_time := average_response_time;
    server_utilization := server_utilization;
    metrics_queue_lengths := queue_lengths st
  |}).

End Simulator.

Arguments LoopState T : clear implicits.
Arguments MMQueueSimulator T : clear implicits.
Arguments Metrics T : clear implicits.

(** ** Laws of the arithmetic

    [NumOrder]: the comparisons are those of a total preorder on the values
    that are not NaN, and false as soon as a NaN is involved.
    [NumTime]: in addition, adding a duration that is not negative to a time
    that is not negative does not give an earlier time, and the reciprocal
    of a negative rate carries a sign bit.
    binary64 and the rationals satisfy both (see [Float64Laws] and
    [RationalLaws]).
    [NumExact]: in addition there is no NaN and no rounding.  The rationals
    satisfy it, binary64 does not. *)

Class NumOrder (T : Type) `{Num T} : Prop := {
  num_zero_not_nan : num_is_nan (num_zero : T) = false;
  num_leb_nan : ∀ x y : T,
    (x <=? y)%num = true → num_is_nan x = false ∧ num_is_nan y = false;
  num_leb_total : ∀ x y : T,
    num_is_nan x = false → num_is_nan y = false →
    (x <=? y)%num = true ∨ (y <=? x)%num = true;
  num_leb_trans : ∀ x y z : T,
    (x <=? y)%num = true → (y <=? z)%num = true → (x <=? z)%num = true;
  num_ltb_leb : ∀ x y : T,
    (x <? y)%num = negb (y <=? x)%num && negb (num_is_nan x) && negb (num_is_nan y);
  num_eqb_leb : ∀ x y : T, (x =? y)%num = (x <=? y)%num && (y <=? x)%num
}.

Class NumTime (T : Type) `{Num T} : Prop := {
  num_time_order :: NumOrder T;
  num_add_increasing : ∀ x s : T,
    (num_zero <=? x)%num = true → (num_zero <=? s)%num = true →
    (x <=? x + s)%num = true;
  num_negative_rate : ∀ rate : T,
    (rate <? num_zero)%num = true →
    num_is_nan (num_one / rate)%num = false ∧
    num_signbit (num_one / rate)%num = true
}.

Class NumExact (T : Type) `{Num T} : Prop := {
  num_exact_time :: NumTime T;
  num_nan_free : ∀ x : T, num_is_nan x = false;
  num_add_comm : ∀ x y : T, (x + y)%num = (y + x)%num;
  num_add_0_l : ∀ x : T, (num_zero + x)%num = x;
  num_add_sub : ∀ x y : T, (x + y - y)%num = x;
  num_leb_add_r : ∀ x y z : T,
    (x <=? y)%num = true → (x + z <=? y + z)%num = true;
  num_leb_sub_r : ∀ x y z : T,
    (x <=? y)%num = true → (x - z <=? y - z)%num = true
}.

(** ** Vocabulary of the statements *)

Section Vocabulary.
Context {T : Type} `{Num T}.
Local Open Scope num_scope.
Implicit Types (st : LoopState T).

(** The state one iteration leaves: [server] was picked, its entry was
    [next_free_time], the customer came at [arrival] and needs [service].
    ([customer_inv] below shows that this is what [customer] returns.) *)
Definition served st (server : nat) (arrival service next_free_time : T) : LoopState T := {|
  departure_times :=
    <[server := (if arrival <? next_free_time then next_free_time else arrival) + service]>
      (departure_times st);
  queue_length := queue_length st;
  queue_lengths :=
    queue_lengths st ++
      [if arrival <? next_free_time then (queue_length st + 1)%Z else queue_length st];
  response_times :=
    response_times st ++
      [(if arrival <? next_free_time then next_free_time else arrival) + service - arrival]
|}.

(** What holds between two iterations: [k] servers, the counter back at 0,
    [m] entries in each log. *)
Record between (k : Z) (m : nat) st : Prop := {
  between_servers : length (departure_times st) = Z.to_nat k;
  between_counter : queue_length st = 0%Z;
  between_queue_lengths : length (queue_lengths st) = m;
  between_response_times : length (response_times st) = m
}.

(** After [m] customers at least [k - m] servers still hold the initial 0. *)
Definition idle_servers (k : Z) (m : nat) st : Prop :=
  ∃ idle : list nat,
    NoDup idle ∧
    Z.to_nat k ≤ (length idle + m)%nat ∧
    ∀ j, j ∈ idle → departure_times st !! j = Some num_zero.

(** [least l j v]: [v = l[j]] is a smallest entry of [l], and strictly
    smaller than every entry before it. *)
Definition least (l : list T) (j : nat) (v : T) : Prop :=
  l !! j = Some v ∧
  (∀ k x, l !! k = Some x → (v <=? x) = true) ∧
  (∀ k x, k < j → l !! k = Some x → (v <? x) = true).

(** Streams of values that are not negative; sequences without NaN. *)
Definition not_negative (l : list T) : Prop :=
  Forall (λ x, (num_zero <=? x) = true) l.

Definition no_nan (l : list T) : Prop :=
  Forall (λ x, num_is_nan x = false) l.

(** What the monotonicity of the next-free-times rests on: at every
    iteration no next-free-time is NaN, the arrival is not NaN, and adding
    the service duration to the service start does not give an earlier
    time. *)
Definition steady (arrival_times service_times : list T) (servers : Z) : Prop :=
  ∀ i st arrival service server next_free_time,
    after arrival_times service_times servers i = Return st →
    arrival_times !! i = Some arrival →
    service_times !! i = Some service →
    departure_times st !! server = Some next_free_time →
    no_nan (departure_times st) ∧
    num_is_nan arrival = false ∧
    let start := if arrival <? next_free_time then next_free_time else arrival in
    (start <=? start + service) = true.

(** numpy's check on [scale]. *)
Definition scale_accepted (scale : T) : bool :=
  negb (negb (num_is_nan scale) && num_signbit scale).

End Vocabulary.

(** ** A stand-in for numpy

    For running the model on concrete inputs: a generator that replays a
    recorded tape of standard exponential variates (scaled by [scale],
    padded with zeros when the tape runs out), and left-to-right means. *)

Module Replay.
Section Tape.
Context {T : Type} `{Num T} (tape : list T).

Definition draw (scale : T) (size : nat) (g : list T) : list T * list T :=
  (map (num_mul scale) (take size (g ++ replicate size num_zero)), drop size g).

Definition to_float (n : Z) : T := default num_zero (of_int n).

Definition mean_of (l : list T) : T :=
  (foldl num_add num_zero l / to_float (Z.of_nat (length l)))%num.

Definition numpy : Numpy T := {|
  rng := list T;
  seed_state := λ _, tape;
  exponential := draw;
  mean := mean_of;
  mean_int := λ l, mean_of (map to_float l)
|}.

End Tape.
End Replay.

(** ** The scenario runner

    [run_mm1_mm2_simulations] runs four scenarios written into the
    notebook, each with the default number of customers, and returns one
    dictionary per scenario: the scenario's own entries merged with the
    metrics of its run.

    The scenario dictionaries are literals with the same four keys; they
    are a record here, and [scenario_dict] is the dictionary the merge
    sees.  Dictionaries are finite maps from keys to [value]s (the order
    of the keys, which Python keeps, is not modelled). *)

Module Scenarios.







Section Runner.
Context {np : Numpy float}.




End Runner.
End Scenarios.
(** * Theorems *)

(** ** binary64 satisfies [NumOrder] and [NumTime]

    Derived from the Standard Library's axioms relating the primitive
    operations to their specification on [spec_float]. *)

Module Float64Laws.
Import Floats.SpecFloat Floats.FloatOps Floats.FloatAxioms Float64.

(** *** Comparisons *)

Lemma SFleb_key x y :
  x ≠ S754_nan → y ≠ S754_nan →
  (SFleb x y = true ↔ lex_le (key x) (key y)).
Proof.
  intros Hx Hy.
  destruct x as [[|]|[|]| |[|] mx ex], y as [[|]|[|]| |[|] my ey];
    try done; unfold SFleb, SFcompare, key, lex_le;
    try (split; [intros _; lia | reflexivity]);
    try (split; [discriminate | lia]).
  all: change (Pos.compare_cont Eq ?a ?b) with (Pos.compare a b).
  all: destruct (Z.compare_spec ex ey); destruct (Pos.compare_spec mx my); simpl;
    split; try discriminate; try reflexivity; try lia.
Qed.

Lemma SFltb_SFleb x y :
  x ≠ S754_nan → y ≠ S754_nan → SFltb x y = negb (SFleb y x).
Proof.
  intros Hx Hy.
  destruct x as [[|]|[|]| |[|] mx ex], y as [[|]|[|]| |[|] my ey];
    try done; unfold SFltb, SFleb, SFcompare.
  all: change (Pos.compare_cont Eq ?a ?b) with (Pos.compare a b).
  all: rewrite (Z.compare_antisym ex ey), (Pos.compare_antisym mx my).
  all: destruct (Z.compare ex ey); destruct (Pos.compare mx my); reflexivity.
Qed.

Lemma SFeqb_SFleb x y : SFeqb x y = SFleb x y && SFleb y x.
Proof.
  destruct x as [[|]|[|]| |[|] mx ex], y as [[|]|[|]| |[|] my ey];
    try done; unfold SFeqb, SFleb, SFcompare.
  all: change (Pos.compare_cont Eq ?a ?b) with (Pos.compare a b).
  all: rewrite (Z.compare_antisym ex ey), (Pos.compare_antisym mx my).
  all: destruct (Z.compare ex ey); destruct (Pos.compare mx my); reflexivity.
Qed.

Lemma SFleb_not_nan x y : SFleb x y = true → x ≠ S754_nan ∧ y ≠ S754_nan.
Proof. by destruct x, y. Qed.

Lemma SFeqb_refl x : x ≠ S754_nan → SFeqb x x = true.
Proof.
  destruct x as [[|]|[|]| |[|] mx ex]; try done; intros _; unfold SFeqb, SFcompare;
    change (Pos.compare_cont Eq ?a ?b) with (Pos.compare a b);
    by rewrite Z.compare_refl, Pos.compare_refl.
Qed.

Lemma is_nan_Prim2SF (x : float) : PrimFloat.is_nan x = true ↔ Prim2SF x = S754_nan.
Proof.
  unfold PrimFloat.is_nan. rewrite FloatAxioms.eqb_spec, negb_true_iff. split.
  - intros Hn. destruct (Prim2SF x) eqn:Hx; try done; exfalso.
    all: rewrite SFeqb_refl in Hn; done.
  - by intros ->.
Qed.

Lemma is_nan_false (x : float) : PrimFloat.is_nan x = false ↔ Prim2SF x ≠ S754_nan.
Proof. rewrite <- is_nan_Prim2SF. by destruct (PrimFloat.is_nan x). Qed.

Lemma Prim2SF_zero : Prim2SF PrimFloat.zero = S754_zero false.
Proof. reflexivity. Qed.

Lemma Prim2SF_one : Prim2SF PrimFloat.one = S754_finite false 4503599627370496 (-52).
Proof. reflexivity. Qed.

Global Instance float_order : NumOrder float.
Proof.
  split; unfold num_zero, num_is_nan, num_leb, num_ltb, num_eqb, float_num.
  - reflexivity.
  - intros x y. rewrite !is_nan_false, FloatAxioms.leb_spec. apply SFleb_not_nan.
  - intros x y. rewrite !is_nan_false, !FloatAxioms.leb_spec. intros Hx Hy.
    rewrite !SFleb_key by done.
    destruct (key (Prim2SF x)) as [[? ?] ?], (key (Prim2SF y)) as [[? ?] ?].
    unfold lex_le. lia.
  - intros x y z. rewrite !FloatAxioms.leb_spec. intros Hxy Hyz.
    destruct (SFleb_not_nan _ _ Hxy) as [Hx Hy].
    destruct (SFleb_not_nan _ _ Hyz) as [_ Hz].
    apply SFleb_key in Hxy, Hyz; try done. apply SFleb_key; try done.
    destruct (key (Prim2SF x)) as [[? ?] ?], (key (Prim2SF y)) as [[? ?] ?],
      (key (Prim2SF z)) as [[? ?] ?]. unfold lex_le in *. lia.
  - intros x y. rewrite FloatAxioms.ltb_spec, FloatAxioms.leb_spec.
    destruct (PrimFloat.is_nan x) eqn:Hx.
    { apply is_nan_Prim2SF in Hx. rewrite Hx. by rewrite andb_false_r. }
    destruct (PrimFloat.is_nan y) eqn:Hy.
    { apply is_nan_Prim2SF in Hy. rewrite Hy.
      destruct (Prim2SF x); by rewrite ?andb_false_r. }
    apply is_nan_false in Hx, Hy. rewrite SFltb_SFleb by done.
    by rewrite !andb_true_r.
  - intros x y. rewrite FloatAxioms.eqb_spec, !FloatAxioms.leb_spec.
    apply SFeqb_SFleb.
Qed.

(** *** Rounding keeps the sign *)

Lemma iter_pos_preserves {A} (P : A → Prop) (f : A → A) :
  (∀ a, P a → P (f a)) → ∀ n a, P a → P (iter_pos f n a).
Proof. intros Hf. induction n as [n IH|n IH|]; intros a Ha; simpl; auto. Qed.

Lemma shr_1_nonneg mrs : (0 ≤ shr_m mrs)%Z → (0 ≤ shr_m (shr_1 mrs))%Z.
Proof. destruct mrs as [[|[p|p|]|[p|p|]] r s]; simpl; lia. Qed.

Lemma shr_fexp_nonneg m e l :
  (0 ≤ m)%Z → (0 ≤ shr_m (shr_fexp prec emax m e l).1)%Z.
Proof.
  intros Hm. unfold shr_fexp, shr.
  assert (0 ≤ shr_m (shr_record_of_loc m l))%Z as Hrec
    by (destruct l as [|[| |]]; done).
  destruct (_ - e)%Z; simpl; try done.
  apply (iter_pos_preserves (λ mrs, 0 ≤ shr_m mrs)%Z); [apply shr_1_nonneg | done].
Qed.

Lemma round_nearest_even_nonneg m l : (0 ≤ m)%Z → (0 ≤ round_nearest_even m l)%Z.
Proof.
  intros Hm. destruct l as [|[| |]]; simpl; try done; [destruct (Z.even m)|]; lia.
Qed.

Lemma round_nearest_even_ge m l : (m ≤ round_nearest_even m l)%Z.
Proof. destruct l as [|[| |]]; simpl; try lia. destruct (Z.even m); lia. Qed.

Lemma binary_round_aux_sign sx m e l :
  (0 ≤ m)%Z → has_sign sx (binary_round_aux prec emax sx m e l).
Proof.
  intros Hm. unfold binary_round_aux.
  pose proof (shr_fexp_nonneg m e l Hm) as H1.
  destruct (shr_fexp prec emax m e l) as [mrs' e']. simpl in H1.
  pose proof (shr_fexp_nonneg _ e' loc_Exact
                (round_nearest_even_nonneg _ (loc_of_shr_record mrs') H1)) as H2.
  destruct (shr_fexp prec emax _ e' loc_Exact) as [mrs'' e'']. simpl in H2.
  destruct (shr_m mrs'') as [|p|p]; [done| |lia].
  by destruct (e'' <=? _)%Z.
Qed.

(** *** Number of digits *)

Lemma digits2_size p : digits2_pos p = Pos.size p.
Proof. induction p as [p IH|p IH|]; simpl; by rewrite ?IH. Qed.

Lemma digits2_upper p : (Zpos p < 2 ^ Zpos (digits2_pos p))%Z.
Proof.
  rewrite digits2_size, <- Pos2Z.inj_pow. apply Pos2Z.pos_lt_pos, Pos.size_gt.
Qed.

Lemma digits2_lower p : (2 ^ (Zpos (digits2_pos p) - 1) ≤ Zpos p)%Z.
Proof.
  pose proof (Pos.size_le p) as Hle. apply Pos2Z.pos_le_pos in Hle.
  rewrite Pos2Z.inj_pow, <- digits2_size in Hle.
  replace (Zpos (digits2_pos p)) with (1 + (Zpos (digits2_pos p) - 1))%Z in Hle by lia.
  rewrite Z.pow_add_r in Hle by lia. change (2 ^ 1)%Z with 2%Z in Hle.
  rewrite (Pos2Z.inj_xO p) in Hle. lia.
Qed.

Lemma digits2_mono p q :
  (p ≤ q)%positive → (Zpos (digits2_pos p) ≤ Zpos (digits2_pos q))%Z.
Proof.
  intros Hpq.
  destruct (Z.le_gt_cases (Zpos (digits2_pos p)) (Zpos (digits2_pos q))) as [|Hgt];
    [done | exfalso].
  pose proof (digits2_upper q) as Hq. pose proof (digits2_lower p) as Hp.
  assert (2 ^ Zpos (digits2_pos q) ≤ 2 ^ (Zpos (digits2_pos p) - 1))%Z
    by (apply Z.pow_le_mono_r; lia).
  apply Pos2Z.pos_le_pos in Hpq. lia.
Qed.

(** *** Aligning and shifting mantissas *)

Lemma iter_xO_value m d :
  Zpos (Pos.iter xO m d) = (Zpos m * 2 ^ Zpos d)%Z ∧
  Zpos (digits2_pos (Pos.iter xO m d)) = (Zpos (digits2_pos m) + Zpos d)%Z.
Proof.
  induction d as [|d [IHv IHd]] using Pos.peano_ind.
  - split; [simpl; lia|]. simpl digits2_pos. rewrite Pos2Z.inj_succ. lia.
  - rewrite Pos.iter_succ. simpl digits2_pos.
    rewrite (Pos2Z.inj_xO (Pos.iter xO m d)), IHv, !Pos2Z.inj_succ, IHd.
    rewrite Z.pow_succ_r by lia. split; lia.
Qed.

Lemma shl_align_value m ex ez :
  (ez ≤ ex)%Z →
  let m' := (shl_align m ex ez).1 in
  Zpos m' = (Zpos m * 2 ^ (ex - ez))%Z ∧
  Zpos (digits2_pos m') = (Zpos (digits2_pos m) + (ex - ez))%Z.
Proof.
  intros Hle. unfold shl_align.
  destruct (ez - ex)%Z as [|d|d] eqn:Hd; simpl; [| lia |].
  - replace (ex - ez)%Z with 0%Z by lia. simpl. lia.
  - replace (ex - ez)%Z with (Zpos d) by lia. apply iter_xO_value.
Qed.

Lemma shr_1_value mrs : (0 ≤ shr_m mrs)%Z → shr_m (shr_1 mrs) = (shr_m mrs / 2)%Z.
Proof.
  destruct mrs as [[|[p|p|]|p] r s]; simpl; intros Hm; try lia; try done.
  - rewrite (Pos2Z.inj_xI p). apply (Z.div_unique _ _ _ 1); lia.
  - rewrite (Pos2Z.inj_xO p). apply (Z.div_unique _ _ _ 0); lia.
Qed.

Lemma iter_shr_1_value p : ∀ mrs,
  (0 ≤ shr_m mrs)%Z →
  (0 ≤ shr_m (iter_pos shr_1 p mrs))%Z ∧
  shr_m (iter_pos shr_1 p mrs) = (shr_m mrs / 2 ^ Zpos p)%Z.
Proof.
  induction p as [p IH|p IH|]; intros mrs Hm; simpl iter_pos.
  - pose proof (shr_1_nonneg mrs Hm) as H1.
    destruct (IH _ H1) as [H2 E2]. destruct (IH _ H2) as [H3 E3].
    split; [done|]. rewrite E3, E2, shr_1_value by done.
    rewrite !Z.div_div by lia. f_equal.
    rewrite (Pos2Z.inj_xI p), Z.pow_add_r, Z.pow_mul_r by lia.
    change (2 ^ 1)%Z with 2%Z. change (2 ^ 2)%Z with 4%Z.
    replace (4 ^ Zpos p)%Z with (2 ^ Zpos p * 2 ^ Zpos p)%Z; [lia|].
    by rewrite <- Z.pow_mul_l.
  - destruct (IH _ Hm) as [H2 E2]. destruct (IH _ H2) as [H3 E3].
    split; [done|]. rewrite E3, E2.
    rewrite !Z.div_div by lia. f_equal.
    rewrite (Pos2Z.inj_xO p), Z.pow_mul_r by lia. change (2 ^ 2)%Z with 4%Z.
    by rewrite <- Z.pow_mul_l.
  - split; [by apply shr_1_nonneg|]. by rewrite shr_1_value.
Qed.

Lemma shr_fexp_value m e :
  (0 ≤ m)%Z →
  let k := Z.max (fexp prec emax (Zdigits2 m + e) - e) 0 in
  let '(mrs, e') := shr_fexp prec emax m e loc_Exact in
  e' = (e + k)%Z ∧ shr_m mrs = (m / 2 ^ k)%Z.
Proof.
  intros Hm. unfold shr_fexp, shr. simpl shr_record_of_loc.
  destruct (fexp prec emax (Zdigits2 m + e) - e)%Z as [|p|p] eqn:Hk; simpl.
  - split; [lia|]. by rewrite Z.div_1_r.
  - split; [lia|].
    by apply (iter_shr_1_value p {| shr_m := m; shr_r := false; shr_s := false |}).
  - split; [lia|]. by rewrite Z.div_1_r.
Qed.

(** *** Addition of values that are not negative *)

(** For finite [x] and [s] that are positive, the rounded sum is at least
    [x]: either its exponent is larger than that of [x], or it is the same
    and the mantissa has not shrunk. *)
Lemma SFadd_finite_increasing mx ex ms es :
  bounded prec emax mx ex = true →
  SFleb (S754_finite false mx ex)
        (SF64add (S754_finite false mx ex) (S754_finite false ms es)) = true.
Proof.
  intros [Hcanon _]%andb_prop. apply Z.eqb_eq in Hcanon.
  unfold SF64add, SFadd, cond_Zopp.
  set (ez := Z.min ex es).
  destruct (shl_align_value mx ex ez ltac:(lia)) as [Hvx Hdx].
  set (mx' := (shl_align mx ex ez).1) in *.
  set (ms' := (shl_align ms es ez).1).
  rewrite <- Pos2Z.inj_add. unfold binary_normalize, binary_round.
  set (Mp := (mx' + ms')%positive).
  assert (Zpos (digits2_pos mx') ≤ Zpos (digits2_pos Mp))%Z as Hdig
    by (apply digits2_mono; lia).
  assert (0 < 2 ^ (ex - ez))%Z as Hpow by (apply Z.pow_pos_nonneg; lia).
  assert (Zpos mx * 2 ^ (ex - ez) ≤ Zpos Mp)%Z as HMp
    by (rewrite <- Hvx; unfold Mp; lia).
  set (e1 := fexp prec emax (Zpos (digits2_pos Mp) + ez)).
  assert (ex ≤ e1)%Z as He1.
  { subst e1. rewrite <- Hcanon at 1. unfold fexp. lia. }
  assert (SpecFloat.emin prec emax ≤ ex)%Z as Hemin
    by (rewrite <- Hcanon; unfold fexp; lia).
  assert (shl_align Mp ez e1 = (Mp, ez)) as ->.
  { unfold shl_align. destruct (e1 - ez)%Z eqn:?; try done. lia. }
  unfold binary_round_aux.
  pose proof (shr_fexp_value (Zpos Mp) ez ltac:(lia)) as Hshr1.
  simpl Zdigits2 in Hshr1. fold e1 in Hshr1.
  destruct (shr_fexp prec emax (Zpos Mp) ez loc_Exact) as [mrs' e'].
  destruct Hshr1 as [-> Hm1].
  replace (ez + Z.max (e1 - ez) 0)%Z with e1 by lia.
  replace (Z.max (e1 - ez) 0) with (e1 - ez)%Z in Hm1 by lia.
  set (m2 := round_nearest_even (shr_m mrs') (loc_of_shr_record mrs')).
  pose proof (round_nearest_even_ge (shr_m mrs') (loc_of_shr_record mrs')) as Hm2.
  fold m2 in Hm2.
  (* the first shift keeps at least [mx] when the exponent stays [ex], and
     at least one bit otherwise *)
  assert ((1 ≤ shr_m mrs')%Z ∧ (e1 = ex → (Zpos mx ≤ shr_m mrs')%Z)) as [Hpos Hkeep].
  { rewrite Hm1. split.
    - destruct (Z.eq_dec e1 ex) as [Heq | Hne].
      + apply Z.div_le_lower_bound; [apply Z.pow_pos_nonneg; lia|].
        rewrite Heq. nia.
      + assert (e1 = Zpos (digits2_pos Mp) + ez - prec)%Z as Heq
          by (subst e1; unfold fexp in *; lia).
        pose proof (digits2_lower Mp) as Hlow.
        apply Z.div_le_lower_bound; [apply Z.pow_pos_nonneg; lia|].
        etransitivity; [|exact Hlow].
        replace (Zpos (digits2_pos Mp) - 1)%Z
          with ((e1 - ez) + (prec - 1))%Z by (rewrite Heq; lia).
        rewrite Z.pow_add_r; [|lia|unfold prec; lia].
        assert (1 ≤ 2 ^ (prec - 1))%Z
          by (apply (Z.pow_le_mono_r 2 0); unfold prec; lia).
        assert (0 < 2 ^ (e1 - ez))%Z by (apply Z.pow_pos_nonneg; lia).
        nia.
    - intros Heq. apply Z.div_le_lower_bound; [apply Z.pow_pos_nonneg; lia|].
      rewrite Heq. nia. }
  assert (1 ≤ m2)%Z as Hm2pos by lia.
  pose proof (shr_fexp_value m2 e1 ltac:(lia)) as Hshr2.
  destruct (shr_fexp prec emax m2 e1 loc_Exact) as [mrs'' e''].
  destruct Hshr2 as [-> Hm''].
  set (k' := Z.max (fexp prec emax (Zdigits2 m2 + e1) - e1) 0) in *.
  (* a second shift, if any, keeps at least one bit *)
  assert ((1 ≤ shr_m mrs'')%Z ∧ (k' = 0%Z → shr_m mrs'' = m2)) as [Hpos'' Hsame].
  { rewrite Hm''. split.
    - destruct (Z.eq_dec k' 0%Z) as [-> | Hne]; [by rewrite Z.div_1_r|].
      destruct m2 as [|p2|p2] eqn:Hp2; [lia| |lia]. simpl Zdigits2 in *.
      assert (k' = Zpos (digits2_pos p2) - prec)%Z as Hk'
        by (subst k'; unfold fexp in *; lia).
      pose proof (digits2_lower p2) as Hlow.
      apply Z.div_le_lower_bound; [apply Z.pow_pos_nonneg; lia|].
      etransitivity; [|exact Hlow].
      replace (Zpos (digits2_pos p2) - 1)%Z
        with (k' + (prec - 1))%Z by (rewrite Hk'; lia).
      rewrite Z.pow_add_r; [|lia|unfold prec; lia].
      assert (1 ≤ 2 ^ (prec - 1))%Z
        by (apply (Z.pow_le_mono_r 2 0); unfold prec; lia).
      assert (0 < 2 ^ k')%Z by (apply Z.pow_pos_nonneg; lia).
      nia.
    - intros ->. by rewrite Z.div_1_r. }
  destruct (shr_m mrs'') as [|m''|m''] eqn:Hfinal; [lia| |lia].
  destruct (e1 + k' <=? emax - prec)%Z; [|done].
  apply SFleb_key; [done..|]. unfold key, lex_le.
  destruct (Z.eq_dec k' 0%Z) as [Hk0 | Hk0]; [|lia].
  rewrite Hk0, Z.add_0_r. specialize (Hsame Hk0).
  destruct (Z.eq_dec e1 ex) as [Heq | Hne]; [|lia].
  specialize (Hkeep Heq). lia.
Qed.

Lemma SFadd_increasing x s :
  valid_binary x = true → SFnonneg x → SFnonneg s → SFleb x (SF64add x s) = true.
Proof.
  unfold SFnonneg. intros Hv Hx Hs.
  destruct x as [[|]|[|]| |[|] mx ex], s as [[|]|[|]| |[|] ms es]; try done;
    try (by apply SFadd_finite_increasing);
    (unfold SF64add, SFadd; apply SFleb_key; [done..|]; unfold key, lex_le; lia).
Qed.

(** *** The reciprocal of a negative rate *)

Lemma SFdiv_core_nonneg m1 e1 m2 e2 :
  (0 ≤ (SFdiv_core_binary prec emax (Zpos m1) e1 (Zpos m2) e2).1.1)%Z.
Proof.
  unfold SFdiv_core_binary.
  set (s := (e1 - e2 - _)%Z).
  set (m' := match s with
             | Zpos _ => Z.shiftl (Zpos m1) s | Z0 => Zpos m1 | Zneg _ => 0%Z
             end).
  assert (0 ≤ m')%Z as Hm'.
  { subst m'. destruct s; [lia | apply Z.shiftl_nonneg; lia | lia]. }
  pose proof (Z.div_pos m' (Zpos m2) Hm' ltac:(lia)) as Hq.
  unfold Z.div in Hq. by destruct (Z.div_eucl m' (Zpos m2)).
Qed.

Lemma SFdiv_one_negative y :
  SFltb y (S754_zero false) = true →
  has_sign true (SF64div (S754_finite false 4503599627370496 (-52)) y).
Proof.
  destruct y as [[|]|[|]| |[|] my ey]; try done; intros _.
  unfold SF64div, SFdiv.
  pose proof (SFdiv_core_nonneg 4503599627370496 (-52) my ey) as Hq.
  destruct (SFdiv_core_binary _ _ _ _ _ _) as [[mz ez] lz]. simpl in Hq.
  by apply binary_round_aux_sign.
Qed.

Global Instance float_time : NumTime float.
Proof.
  split; [apply _ | |];
    unfold num_zero, num_one, num_is_nan, num_signbit, num_leb, num_ltb,
      num_add, num_div, float_num.
  - intros x s.
    rewrite !FloatAxioms.leb_spec, FloatAxioms.add_spec, Prim2SF_zero.
    apply SFadd_increasing, FloatAxioms.Prim2SF_valid.
  - intros rate. rewrite FloatAxioms.ltb_spec, Prim2SF_zero. intros Hneg.
    pose proof (SFdiv_one_negative _ Hneg) as Hsign.
    rewrite <- Prim2SF_one, <- FloatAxioms.div_spec in Hsign. split.
    + apply is_nan_false. intros Hnan. by rewrite Hnan in Hsign.
    + unfold PrimFloat.get_sign, PrimFloat.is_zero.
      rewrite FloatAxioms.eqb_spec, Prim2SF_zero.
      destruct (Prim2SF (PrimFloat.div PrimFloat.one rate)) as [s|s| |s mq eq] eqn:Hq;
        simpl in Hsign; try done; subst s; simpl.
      * by rewrite FloatAxioms.ltb_spec, FloatAxioms.div_spec, Hq,
          Prim2SF_one, Prim2SF_zero.
      * by rewrite FloatAxioms.ltb_spec, Hq, Prim2SF_zero.
      * by rewrite FloatAxioms.ltb_spec, Hq, Prim2SF_zero.
Qed.

End Float64Laws.

(** ** The rationals satisfy all three *)

Module RationalLaws.
Import Rational.

Lemma Qc_leb_le (x y : Qc) : Qc_leb x y = true ↔ (x <= y)%Qc.
Proof. unfold Qc_leb, Qcle. apply Qle_bool_iff. Qed.

Lemma Qc_ltb_lt (x y : Qc) : Qc_ltb x y = true ↔ (x < y)%Qc.
Proof.
  unfold Qc_ltb. rewrite negb_true_iff, <- not_true_iff_false.
  fold (Qc_leb y x). rewrite Qc_leb_le.
  split; [apply Qcnot_le_lt | apply Qclt_not_le].
Qed.

Lemma Qc_inv_neg (x : Qc) : (x < Q2Qc 0)%Qc → (Q2Qc 1 / x < Q2Qc 0)%Qc.
Proof.
  unfold Qcdiv. rewrite Qcmult_1_l.
  unfold Qclt, Qcinv. cbn [this Q2Qc]. rewrite !Qred_correct.
  destruct x as [[[|n|n] d] Hc]; cbn [this]; unfold Qlt, Qinv; simpl; lia.
Qed.

Global Instance Qc_order : NumOrder Qc.
Proof.
  split; unfold num_zero, num_is_nan, num_leb, num_ltb, num_eqb, Qc_num.
  - done.
  - done.
  - intros x y _ _. rewrite !Qc_leb_le.
    destruct (Qclt_le_dec x y) as [Hlt | Hle]; [left; by apply Qclt_le_weak | by right].
  - intros x y z. rewrite !Qc_leb_le. apply Qcle_trans.
  - intros x y. unfold Qc_ltb, Qc_leb. by rewrite !andb_true_r.
  - intros x y. unfold Qc_eqb, Qc_leb.
    apply eq_true_iff_eq. rewrite andb_true_iff, Qeq_bool_iff, !Qle_bool_iff.
    split; [intros Heq; rewrite Heq; split; apply Qle_refl
           | intros [? ?]; by apply Qle_antisym].
Qed.

Global Instance Qc_time : NumTime Qc.
Proof.
  split; [apply _ | |];
    unfold num_zero, num_one, num_is_nan, num_signbit, num_leb, num_ltb,
      num_add, num_div, Qc_num.
  - intros x s _. rewrite !Qc_leb_le. intros Hs.
    rewrite <- (Qcplus_0_r x) at 1. apply Qcplus_le_compat; [apply Qcle_refl | done].
  - intros rate. rewrite !Qc_ltb_lt. intros Hneg. split; [done|].
    by apply Qc_inv_neg.
Qed.

Global Instance Qc_exact : NumExact Qc.
Proof.
  split; [apply _ | ..];
    unfold num_zero, num_is_nan, num_leb, num_add, num_sub, Qc_num.
  - done.
  - apply Qcplus_comm.
  - apply Qcplus_0_l.
  - intros x y. unfold Qcminus.
    by rewrite <- Qcplus_assoc, Qcplus_opp_r, Qcplus_0_r.
  - intros x y z. rewrite !Qc_leb_le. intros Hxy.
    apply Qcplus_le_compat; [done | apply Qcle_refl].
  - intros x y z. rewrite !Qc_leb_le. intros Hxy. unfold Qcminus.
    apply Qcplus_le_compat; [done | apply Qcle_refl].
Qed.

End RationalLaws.

(** ** The customer loop, one iteration at a time *)

Section LoopFacts.
Context {T : Type} `{Num T}.
Local Open Scope num_scope.
Implicit Types (st : LoopState T) (arrival_times service_times : list T).

Lemma bind_Return {A B} (m : outcome A) (f : A → outcome B) (b : B) :
  m ≫= f = Return b ↔ ∃ a, m = Return a ∧ f a = Return b.
Proof. destruct m as [a|e]; simpl; [|split; [done | intros (? & ? & ?); done]].
  split; [eauto | by intros (? & [= <-] & ?)]. Qed.

Lemma index_Return {A} (l : list A) i x : index l i = Return x ↔ l !! i = Some x.
Proof. unfold index. destruct (l !! i); split; congruence. Qed.

Lemma for_each_app {A S} (body : S → A → outcome S) l1 l2 (s0 : S) :
  for_each body (l1 ++ l2) s0 = for_each body l1 s0 ≫= for_each body l2.
Proof.
  revert s0. induction l1 as [|x l1 IH]; intros s0; simpl; [done|].
  destruct (body s0 x); simpl; auto.
Qed.

Lemma after_0 arrival_times service_times k :
  after arrival_times service_times k 0 = Return (initial k).
Proof. done. Qed.

Lemma after_S arrival_times service_times k m :
  after arrival_times service_times k (S m) =
  after arrival_times service_times k m ≫= λ st, customer arrival_times service_times st m.
Proof.
  unfold after. rewrite seq_S, for_each_app. simpl.
  destruct (for_each _ (seq 0 m) _) as [st|]; simpl; [|done].
  by destruct (customer _ _ st m).
Qed.

(** *** [np.argmin] stays inside the sequence *)

Lemma argmin_scan_lt l : ∀ mp mi i, mi < i → argmin_scan mp mi i l < i + length l.
Proof.
  induction l as [|x l IH]; intros mp mi i Hlt; simpl.
  - destruct (num_is_nan mp); lia.
  - destruct (num_is_nan mp); [lia|].
    destruct (negb (mp <=? x)).
    + specialize (IH x i (S i)). lia.
    + specialize (IH mp mi (S i)). lia.
Qed.

Lemma argmin_lt (l : list T) j : argmin l = Return j → j < length l.
Proof.
  destruct l as [|x l]; simpl; [done|]. intros [= <-].
  pose proof (argmin_scan_lt l x 0 1). lia.
Qed.

Lemma argmin_returns (l : list T) : l ≠ [] → ∃ j, argmin l = Return j.
Proof. destruct l; [done | simpl; eauto]. Qed.

Lemma argmin_singleton (x : T) : argmin [x] = Return 0.
Proof. simpl. by destruct (num_is_nan x). Qed.

(** *** What one iteration does to the state *)

Lemma customer_inv arrival_times service_times st i st' :
  customer arrival_times service_times st i = Return st' ↔
  ∃ arrival service server next_free_time,
    arrival_times !! i = Some arrival ∧
    service_times !! i = Some service ∧
    argmin (departure_times st) = Return server ∧
    departure_times st !! server = Some next_free_time ∧
    st' = served st server arrival service next_free_time.
Proof.
  unfold customer, served. split.
  - intros Hc.
    apply bind_Return in Hc as (arrival & Ha%index_Return & Hc).
    apply bind_Return in Hc as (service & Hs%index_Return & Hc).
    apply bind_Return in Hc as (server & Hm & Hc).
    apply bind_Return in Hc as (nft & Hn%index_Return & Hc).
    exists arrival, service, server, nft. repeat split; try done.
    destruct (arrival <? nft); injection Hc as <-; f_equal; lia.
  - intros (arrival & service & server & nft & Ha & Hs & Hm & Hn & ->).
    apply bind_Return. exists arrival. split; [by apply index_Return|].
    apply bind_Return. exists service. split; [by apply index_Return|].
    apply bind_Return. exists server. split; [done|].
    apply bind_Return. exists nft. split; [by apply index_Return|].
    destruct (arrival <? nft); f_equal; f_equal; lia.
Qed.

Lemma customer_returns arrival_times service_times st i :
  i < length arrival_times → i < length service_times →
  departure_times st ≠ [] →
  ∃ st', customer arrival_times service_times st i = Return st'.
Proof.
  intros [arrival Ha]%lookup_lt_is_Some [service Hs]%lookup_lt_is_Some Hne.
  destruct (argmin_returns _ Hne) as [server Hm].
  destruct (lookup_lt_is_Some_2 (departure_times st) server) as [nft Hn];
    [by apply argmin_lt|].
  eexists. apply customer_inv. by exists arrival, service, server, nft.
Qed.

(** *** What holds between iterations *)

Lemma between_initial k : between k 0 (initial k).
Proof. split; simpl; [by rewrite length_replicate | done..]. Qed.

Lemma between_served k m st server arrival service nft :
  between k m st → between k (S m) (served st server arrival service nft).
Proof.
  intros [? ? ? ?]. split; simpl.
  - by rewrite length_insert.
  - done.
  - rewrite length_app. simpl. lia.
  - rewrite length_app. simpl. lia.
Qed.

Lemma after_returns arrival_times service_times k m :
  (1 ≤ k)%Z → m ≤ length arrival_times → m ≤ length service_times →
  ∃ st, after arrival_times service_times k m = Return st ∧ between k m st.
Proof.
  intros Hk. induction m as [|m IH]; intros Ha Hs.
  - exists (initial k). split; [done | apply between_initial].
  - destruct IH as (st & Hst & Hbet); [lia..|].
    destruct (customer_returns arrival_times service_times st m) as [st' Hst'];
      [lia | lia | |].
    { intros Hnil. pose proof (between_servers _ _ _ Hbet) as Hlen.
      rewrite Hnil in Hlen. simpl in Hlen. lia. }
    exists st'. split.
    + rewrite after_S, Hst. done.
    + apply customer_inv in Hst' as (? & ? & ? & ? & _ & _ & _ & _ & ->).
      by apply between_served.
Qed.

(** Iteration [i] in full: the state it starts from, the server it picks
    and the state it leaves. *)
Lemma after_step arrival_times service_times k i arrival service :
  (1 ≤ k)%Z →
  i < length arrival_times → i < length service_times →
  arrival_times !! i = Some arrival → service_times !! i = Some service →
  ∃ st server next_free_time,
    after arrival_times service_times k i = Return st ∧
    between k i st ∧
    argmin (departure_times st) = Return server ∧
    departure_times st !! server = Some next_free_time ∧
    after arrival_times service_times k (S i) =
      Return (served st server arrival service next_free_time).
Proof.
  intros Hk Hla Hls Ha Hs.
  destruct (after_returns arrival_times service_times k i) as (st & Hst & Hbet);
    [lia..|].
  destruct (after_returns arrival_times service_times k (S i)) as (st' & Hst' & _);
    [lia..|].
  rewrite after_S, Hst in Hst'. simpl in Hst'.
  apply customer_inv in Hst' as (a' & s' & server & nft & Ha' & Hs' & Hm & Hn & ->).
  simplify_eq. exists st, server, nft. repeat split; try done; try apply Hbet.
  rewrite after_S, Hst. simpl. apply customer_inv.
  by exists arrival, service, server, nft.
Qed.

(** The two logs only grow. *)
Lemma after_logs_grow arrival_times service_times k i j sti stj :
  i ≤ j →
  after arrival_times service_times k i = Return sti →
  after arrival_times service_times k j = Return stj →
  queue_lengths sti `prefix_of` queue_lengths stj ∧
  response_times sti `prefix_of` response_times stj.
Proof.
  intros Hij Hi. revert stj. induction Hij as [|j Hij IH]; intros stj Hj.
  - rewrite Hi in Hj. injection Hj as <-. done.
  - rewrite after_S in Hj. apply bind_Return in Hj as (st & Hst & Hc).
    destruct (IH _ Hst) as [Hq Hr].
    apply customer_inv in Hc as (? & ? & ? & ? & _ & _ & _ & _ & ->). simpl.
    split; by apply prefix_app_r.
Qed.

End LoopFacts.

(** ** A whole run of the loop *)

Section RunFacts.
Context {T : Type} `{Num T}.
Local Open Scope num_scope.
Implicit Types (st : LoopState T) (arrival_times service_times : list T).

(** For well-formed input the loop returns, and entry [i] of each log is
    what iteration [i] appended. *)
Lemma run_trace arrival_times service_times k n :
  (1 ≤ k)%Z →
  length arrival_times = Z.to_nat n →
  length service_times = Z.to_nat n →
  ∃ final,
    simulate arrival_times service_times k n = Return final ∧
    between k (Z.to_nat n) final ∧
    ∀ i arrival service,
      arrival_times !! i = Some arrival → service_times !! i = Some service →
      ∃ st server next_free_time,
        after arrival_times service_times k i = Return st ∧
        between k i st ∧
        argmin (departure_times st) = Return server ∧
        departure_times st !! server = Some next_free_time ∧
        after arrival_times service_times k (S i) =
          Return (served st server arrival service next_free_time) ∧
        queue_lengths final !! i =
          Some (if arrival <? next_free_time then 1%Z else 0%Z) ∧
        response_times final !! i =
          Some ((if arrival <? next_free_time then next_free_time else arrival)
                + service - arrival).
Proof.
  intros Hk Hla Hls.
  destruct (after_returns arrival_times service_times k (Z.to_nat n))
    as (final & Hfinal & Hbet); [lia..|].
  exists final. split; [done|]. split; [done|].
  intros i arrival service Ha Hs.
  pose proof (lookup_lt_Some _ _ _ Ha) as Hia.
  pose proof (lookup_lt_Some _ _ _ Hs) as His.
  destruct (after_step arrival_times service_times k i arrival service)
    as (st & server & nft & Hst & Hbi & Hm & Hn & Hst'); [done..|].
  exists st, server, nft. repeat split; try done; try apply Hbi.
  - destruct (after_logs_grow arrival_times service_times k (S i) (Z.to_nat n)
      _ final ltac:(lia) Hst' Hfinal) as [Hq _].
    eapply prefix_lookup_Some; [|done]. simpl.
    rewrite lookup_app_r, (between_queue_lengths _ _ _ Hbi), Nat.sub_diag,
      (between_counter _ _ _ Hbi); [|by rewrite (between_queue_lengths _ _ _ Hbi)].
    simpl. by destruct (arrival <? nft).
  - destruct (after_logs_grow arrival_times service_times k (S i) (Z.to_nat n)
      _ final ltac:(lia) Hst' Hfinal) as [_ Hr].
    eapply prefix_lookup_Some; [|done]. simpl.
    rewrite lookup_app_r, (between_response_times _ _ _ Hbi), Nat.sub_diag;
      [done | by rewrite (between_response_times _ _ _ Hbi)].
Qed.

End RunFacts.

(** C1: in a run with at least one server and streams of [total_customers]
    entries each, the loop returns, and customer [i] (taken in arrival order,
    from the state left by customers [0..i-1]) is served by the server
    [np.argmin] picks: the service starts at that server's next-free-time
    if the arrival is strictly earlier and at the arrival time otherwise,
    the departure is start plus service duration, that server's
    next-free-time becomes the departure, and the logged response time is
    departure minus arrival. *)
Theorem customers_served_in_arrival_order {T : Type} `{Num T}
    (arrival_times service_times : list T) (servers total_customers : Z) :
  (1 ≤ servers)%Z →
  length arrival_times = Z.to_nat total_customers →
  length service_times = Z.to_nat total_customers →
  ∃ final,
    simulate arrival_times service_times servers total_customers = Return final ∧
    ∀ i arrival service,
      arrival_times !! i = Some arrival → service_times !! i = Some service →
      ∃ st st' server next_free_time serviceStartTime departureTime responseTime,
        after arrival_times service_times servers i = Return st ∧
        after arrival_times service_times servers (S i) = Return st' ∧
        argmin (departure_times st) = Return server ∧
        departure_times st !! server = Some next_free_time ∧
        ((arrival <? next_free_time)%num = true ∧ serviceStartTime = next_free_time ∨
         (arrival <? next_free_time)%num = false ∧ serviceStartTime = arrival) ∧
        departureTime = (serviceStartTime + service)%num ∧
        departure_times st' = <[server := departureTime]> (departure_times st) ∧
        departure_times st' !! server = Some departureTime ∧
        responseTime = (departureTime - arrival)%num ∧
        response_times st' = response_times st ++ [responseTime] ∧
        response_times final !! i = Some responseTime.
Proof.
  intros Hk Hla Hls.
  destruct (run_trace arrival_times service_times servers total_customers)
    as (final & Hfinal & _ & Htrace); [done..|].
  exists final. split; [done|].
  intros i arrival service Ha Hs.
  destruct (Htrace i arrival service Ha Hs)
    as (st & server & nft & Hst & Hbet & Hm & Hn & Hst' & _ & Hr).
  set (start := if (arrival <? nft)%num then nft else arrival) in *.
  exists st, (served st server arrival service nft), server, nft,
    start, (start + service)%num, (start + service - arrival)%num.
  split; [done|]. split; [done|]. split; [done|]. split; [done|].
  split; [|split; [reflexivity|]].
  { subst start. destruct (arrival <? nft)%num; [left | right]; done. }
  simpl. split; [done|]. split; [|done].
  apply list_lookup_insert_eq. by eapply lookup_lt_Some.
Qed.

(** On binary64: two servers, three customers. *)
Lemma customers_served_in_arrival_order_witness :
  let arrival_times := [1; 1.5; 1.75]%float in
  let service_times := [2; 2; 2]%float in
  ∃ final,
    simulate arrival_times service_times 2 3 = Return final ∧
    ∀ i arrival service,
      arrival_times !! i = Some arrival → service_times !! i = Some service →
      ∃ st st' server next_free_time serviceStartTime departureTime responseTime,
        after arrival_times service_times 2 i = Return st ∧
        after arrival_times service_times 2 (S i) = Return st' ∧
        argmin (departure_times st) = Return server ∧
        departure_times st !! server = Some next_free_time ∧
        ((arrival <? next_free_time)%num = true ∧ serviceStartTime = next_free_time ∨
         (arrival <? next_free_time)%num = false ∧ serviceStartTime = arrival) ∧
        departureTime = (serviceStartTime + service)%num ∧
        departure_times st' = <[server := departureTime]> (departure_times st) ∧
        departure_times st' !! server = Some departureTime ∧
        responseTime = (departureTime - arrival)%num ∧
        response_times st' = response_times st ++ [responseTime] ∧
        response_times final !! i = Some responseTime.
Proof.
  intros arrival_times service_times.
  apply (customers_served_in_arrival_order (T := float) arrival_times service_times 2 3).
  - lia.
  - reflexivity.
  - reflexivity.
Defined.

(** C3: every logged queue length is 0 or 1, one per customer, and the
    running counter is back at 0 after each iteration (the increment of a
    waiting customer is undone in the same iteration). *)
Theorem queue_length_log_is_zero_or_one {T : Type} `{Num T}
    (arrival_times service_times : list T) (servers total_customers : Z) :
  (1 ≤ servers)%Z →
  length arrival_times = Z.to_nat total_customers →
  length service_times = Z.to_nat total_customers →
  ∃ final,
    simulate arrival_times service_times servers total_customers = Return final ∧
    length (queue_lengths final) = Z.to_nat total_customers ∧
    (∀ i q, queue_lengths final !! i = Some q → q = 0%Z ∨ q = 1%Z) ∧
    (∀ m st, m ≤ Z.to_nat total_customers →
       after arrival_times service_times servers m = Return st →
       queue_length st = 0%Z).
Proof.
  intros Hk Hla Hls.
  destruct (run_trace arrival_times service_times servers total_customers)
    as (final & Hfinal & Hbet & Htrace); [done..|].
  exists final. split; [done|]. split; [apply Hbet|]. split.
  - intros i q Hq.
    pose proof (lookup_lt_Some _ _ _ Hq) as Hi.
    rewrite (between_queue_lengths _ _ _ Hbet) in Hi.
    destruct (lookup_lt_is_Some_2 arrival_times i) as [arrival Ha]; [lia|].
    destruct (lookup_lt_is_Some_2 service_times i) as [service Hs]; [lia|].
    destruct (Htrace i arrival service Ha Hs)
      as (_ & _ & nft & _ & _ & _ & _ & _ & Hq' & _).
    rewrite Hq in Hq'. injection Hq' as ->.
    destruct (arrival <? nft)%num; auto.
  - intros m st Hm Hst.
    destruct (after_returns arrival_times service_times servers m)
      as (st0 & Hst0 & Hb); [lia..|].
    rewrite Hst in Hst0. injection Hst0 as <-. apply Hb.
Qed.

Lemma queue_length_log_is_zero_or_one_witness :
  let arrival_times := [1; 1.5; 1.75]%float in
  let service_times := [2; 2; 2]%float in
  ∃ final,
    simulate arrival_times service_times 1 3 = Return final ∧
    length (queue_lengths final) = Z.to_nat 3 ∧
    (∀ i q, queue_lengths final !! i = Some q → q = 0%Z ∨ q = 1%Z) ∧
    (∀ m st, m ≤ Z.to_nat 3 →
       after arrival_times service_times 1 m = Return st →
       queue_length st = 0%Z).
Proof.
  intros arrival_times service_times.
  apply (queue_length_log_is_zero_or_one (T := float) arrival_times service_times 1 3).
  - lia.
  - reflexivity.
  - reflexivity.
Defined.

(** ** Comparisons and [np.argmin] *)

Section OrderFacts.
Context {T : Type} `{NumOrder T}.
Local Open Scope num_scope.

Lemma num_leb_refl (x : T) : num_is_nan x = false → (x <=? x) = true.
Proof. intros Hx. by destruct (num_leb_total x x). Qed.

Lemma num_zero_leb_zero : (num_zero <=? (num_zero : T)) = true.
Proof. apply num_leb_refl, num_zero_not_nan. Qed.

Lemma num_nonneg_not_nan (x : T) : (num_zero <=? x) = true → num_is_nan x = false.
Proof. by intros [_ ?]%num_leb_nan. Qed.

Lemma not_negative_no_nan (l : list T) : not_negative l → no_nan l.
Proof.
  intros Hl. eapply Forall_impl; [exact Hl|]. intros x. apply num_nonneg_not_nan.
Qed.

Lemma num_ltb_true (x y : T) :
  (x <? y) = true →
  (y <=? x) = false ∧ num_is_nan x = false ∧ num_is_nan y = false.
Proof.
  rewrite num_ltb_leb.
  destruct (y <=? x), (num_is_nan x), (num_is_nan y); simpl; auto; discriminate.
Qed.

Lemma num_ltb_false (x y : T) :
  num_is_nan x = false → num_is_nan y = false →
  (x <? y) = false → (y <=? x) = true.
Proof. intros Hx Hy. rewrite num_ltb_leb, Hx, Hy. by destruct (y <=? x). Qed.

Lemma num_leb_not_ltb (x y : T) : (y <=? x) = true → (x <? y) = false.
Proof. intros Hle. by rewrite num_ltb_leb, Hle. Qed.

Lemma num_nan_not_ltb (x y : T) : num_is_nan y = true → (x <? y) = false.
Proof. intros Hy. by rewrite num_ltb_leb, Hy, andb_false_r. Qed.

Lemma num_ltb_leb_weak (x y : T) : (x <? y) = true → (x <=? y) = true.
Proof.
  intros (Hyx & Hx & Hy)%num_ltb_true.
  destruct (num_leb_total x y Hx Hy) as [|Hle]; [done | congruence].
Qed.

Lemma num_not_leb (x y : T) :
  num_is_nan x = false → num_is_nan y = false →
  (x <=? y) = false → (y <=? x) = true.
Proof. intros Hx Hy Hxy. destruct (num_leb_total x y Hx Hy); congruence. Qed.

(** The service start [max(arrival, next_free_time)], as the loop computes it. *)
Lemma num_start_ge_arrival (arrival next_free_time : T) :
  num_is_nan arrival = false →
  (arrival <=? if arrival <? next_free_time then next_free_time else arrival) = true.
Proof.
  intros Ha. destruct (arrival <? next_free_time) eqn:Hlt.
  - by apply num_ltb_leb_weak.
  - by apply num_leb_refl.
Qed.

Lemma num_start_ge_next_free_time (arrival next_free_time : T) :
  num_is_nan arrival = false → num_is_nan next_free_time = false →
  (next_free_time <=?
     if arrival <? next_free_time then next_free_time else arrival) = true.
Proof.
  intros Ha Hn. destruct (arrival <? next_free_time) eqn:Hlt.
  - by apply num_leb_refl.
  - by apply num_ltb_false.
Qed.

(** [np.argmin] returns the first NaN if there is one, and otherwise the
    first of the smallest entries. *)
Lemma argmin_scan_spec (l : list T) : ∀ (seen : list T) mp mi,
  seen !! mi = Some mp →
  num_is_nan mp = true ∨ no_nan seen ∧ least seen mi mp →
  ∃ v, (seen ++ l) !! argmin_scan mp mi (length seen) l = Some v ∧
       (num_is_nan v = true ∨ no_nan (seen ++ l) ∧
          least (seen ++ l) (argmin_scan mp mi (length seen) l) v).
Proof.
  induction l as [|x l IH]; intros seen mp mi Hmi Hinv.
  - simpl. rewrite app_nil_r. exists mp.
    by destruct (num_is_nan mp).
  - destruct Hinv as [Hnan | [Hseen Hleast]].
    { simpl. rewrite Hnan. exists mp. split; [by apply lookup_app_l_Some | by left]. }
    pose proof Hleast as (_ & Hmin & Hfirst).
    assert (num_is_nan mp = false) as Hmp
      by (eapply Forall_lookup_1 in Hseen; [exact Hseen | done]).
    simpl. rewrite Hmp.
    replace (seen ++ x :: l) with ((seen ++ [x]) ++ l) by by rewrite <- app_assoc.
    replace (S (length seen)) with (length (seen ++ [x]))
      by (rewrite length_app; simpl; lia).
    destruct (mp <=? x) eqn:Hle; simpl; apply IH.
    + by apply lookup_app_l_Some.
    + right. split.
      { apply Forall_app. split; [done|]. apply Forall_singleton.
        by apply num_leb_nan in Hle as [_ ?]. }
      split; [by apply lookup_app_l_Some|]. split.
      * intros k y [Hy | [_ Hy]]%lookup_app_Some; [by eapply Hmin|].
        destruct (k - length seen)%nat; simplify_eq/=. done.
      * intros k y Hk Hy. apply lookup_app_Some in Hy as [Hy | [Hge _]].
        -- by eapply Hfirst.
        -- apply lookup_lt_Some in Hmi. lia.
    + by rewrite lookup_app_r, Nat.sub_diag.
    + destruct (num_is_nan x) eqn:Hx; [by left | right].
      assert ((x <=? mp) = true) as Hxmp by by apply num_not_leb.
      split; [apply Forall_app; split; [done | by apply Forall_singleton]|].
      split; [by rewrite lookup_app_r, Nat.sub_diag|]. split.
      * intros k y [Hy | [_ Hy]]%lookup_app_Some.
        -- eapply num_leb_trans; [done | by eapply Hmin].
        -- destruct (k - length seen)%nat; simplify_eq/=. by apply num_leb_refl.
      * intros k y Hk Hy. apply lookup_app_Some in Hy as [Hy | [Hge _]]; [|lia].
        assert (num_is_nan y = false) as Hyn
          by (eapply Forall_lookup_1 in Hseen; [exact Hseen | done]).
        rewrite num_ltb_leb, Hx, Hyn. simpl. rewrite ?andb_true_r.
        destruct (y <=? x) eqn:Hyx; [exfalso | done].
        assert ((mp <=? x) = true) as Hmpx
          by (eapply num_leb_trans; [by eapply Hmin | done]).
        congruence.
Qed.

Lemma argmin_spec (l : list T) j :
  argmin l = Return j →
  ∃ v, l !! j = Some v ∧ (num_is_nan v = true ∨ no_nan l ∧ least l j v).
Proof.
  destruct l as [|x l]; simpl; [done|]. intros [= <-].
  apply (argmin_scan_spec l [x] x 0); [done|].
  destruct (num_is_nan x) eqn:Hx; [by left | right].
  split; [by apply Forall_singleton|]. split; [done|]. split; [|lia].
  intros [|k] y Hy; simplify_eq/=. by apply num_leb_refl.
Qed.

Lemma argmin_least (l : list T) j :
  no_nan l → argmin l = Return j → ∃ v, least l j v.
Proof.
  intros Hl Hj. destruct (argmin_spec l j Hj) as (v & Hv & [Hnan | [_ Hleast]]).
  - eapply Forall_lookup_1 in Hl; [|done]. congruence.
  - by exists v.
Qed.

End OrderFacts.

(** ** Next-free-times are not negative *)

Section TimeFacts.
Context {T : Type} `{NumTime T}.
Local Open Scope num_scope.
Implicit Types (st : LoopState T) (arrival_times service_times : list T).

Lemma num_add_nonneg (x s : T) :
  (num_zero <=? x) = true → (num_zero <=? s) = true → (num_zero <=? x + s) = true.
Proof.
  intros Hx Hs. eapply num_leb_trans; [exact Hx|]. by apply num_add_increasing.
Qed.

Lemma served_not_negative st server arrival service next_free_time :
  not_negative (departure_times st) →
  (num_zero <=? arrival) = true → (num_zero <=? service) = true →
  departure_times st !! server = Some next_free_time →
  not_negative (departure_times (served st server arrival service next_free_time)).
Proof.
  intros Hst Ha Hs Hn. simpl. apply Forall_insert; [done|].
  apply num_add_nonneg; [|done].
  destruct (arrival <? next_free_time); [|done].
  by eapply Forall_lookup_1 in Hst.
Qed.

Lemma after_not_negative arrival_times service_times k m st :
  not_negative arrival_times → not_negative service_times →
  after arrival_times service_times k m = Return st →
  not_negative (departure_times st).
Proof.
  intros Ha Hs. revert st. induction m as [|m IH]; intros st Hst.
  - injection Hst as <-. simpl. apply Forall_replicate, num_zero_leb_zero.
  - rewrite after_S in Hst. apply bind_Return in Hst as (st0 & Hst0 & Hc).
    apply customer_inv in Hc
      as (arrival & service & server & nft & Harr & Hsrv & _ & Hn & ->).
    apply served_not_negative; [by apply IH | | | done].
    + by eapply Forall_lookup_1 in Ha.
    + by eapply Forall_lookup_1 in Hs.
Qed.

(** No NaN among the next-free-times: because the streams are not negative,
    or because the carrier has no NaN at all. *)
Lemma after_no_nan arrival_times service_times k m st :
  not_negative arrival_times ∧ not_negative service_times ∨
    (∀ x : T, num_is_nan x = false) →
  after arrival_times service_times k m = Return st →
  no_nan (departure_times st).
Proof.
  intros [[Ha Hs] | Hfree] Hst.
  - apply not_negative_no_nan.
    by apply (after_not_negative arrival_times service_times k m).
  - apply Forall_forall. auto.
Qed.

End TimeFacts.

(** C4: the server a customer is assigned to is the one [np.argmin]
    returns on the pool of next-free-times, and it is the server whose
    entry the iteration overwrites with the customer's departure time.
    That server holds a minimum of the next-free-times of all servers; any
    server tied with it has an index at least as large; and with a single
    server it is server 0.  This needs the next-free-times to be
    comparable: the streams are not negative (then no NaN can arise), or
    the carrier has no NaN. *)
Theorem earliest_free_server_lowest_index {T : Type} `{NumTime T}
    (arrival_times service_times : list T) (servers total_customers : Z) :
  (1 ≤ servers)%Z →
  length arrival_times = Z.to_nat total_customers →
  length service_times = Z.to_nat total_customers →
  not_negative arrival_times ∧ not_negative service_times ∨
    (∀ x : T, num_is_nan x = false) →
  ∀ i arrival service,
    arrival_times !! i = Some arrival → service_times !! i = Some service →
    ∃ st st' server next_free_time departureTime,
      after arrival_times service_times servers i = Return st ∧
      after arrival_times service_times servers (S i) = Return st' ∧
      length (departure_times st) = Z.to_nat servers ∧
      argmin (departure_times st) = Return server ∧
      server < length (departure_times st) ∧
      departure_times st !! server = Some next_free_time ∧
      departureTime =
        ((if arrival <? next_free_time then next_free_time else arrival)
         + service)%num ∧
      departure_times st' = <[server := departureTime]> (departure_times st) ∧
      departure_times st' !! server = Some departureTime ∧
      (∀ k x, k ≠ server →
         departure_times st !! k = Some x → departure_times st' !! k = Some x) ∧
      (∀ k x, departure_times st !! k = Some x →
         (next_free_time <=? x)%num = true) ∧
      (∀ k x, departure_times st !! k = Some x →
         (x <=? next_free_time)%num = true → server ≤ k) ∧
      (servers = 1%Z → server = 0).
Proof.
  intros Hk Hla Hls Hcomparable i arrival service Ha Hs.
  destruct (run_trace arrival_times service_times servers total_customers)
    as (final & _ & _ & Htrace); [done..|].
  destruct (Htrace i arrival service Ha Hs)
    as (st & server & nft & Hst & Hbet & Hm & Hn & Hst' & _).
  pose proof (after_no_nan _ _ _ _ _ Hcomparable Hst) as Hnan.
  destruct (argmin_least _ _ Hnan Hm) as (v & Hv & Hmin & Hfirst).
  assert (v = nft) as -> by congruence.
  pose proof (lookup_lt_Some _ _ _ Hn) as Hserver.
  eexists st, _, server, nft, _.
  split; [done|]. split; [exact Hst'|]. split; [apply Hbet|].
  split; [done|]. split; [done|]. split; [done|].
  split; [reflexivity|]. split; [reflexivity|].
  split; [by apply list_lookup_insert_eq|].
  split; [by intros k x Hne Hx; simpl; rewrite list_lookup_insert_ne|].
  split; [done|]. split.
  - intros k x Hx Htie. destruct (decide (server ≤ k)) as [|Hlt]; [done|].
    assert ((nft <? x)%num = true) as Hstrict by (apply (Hfirst k x); [lia | done]).
    apply num_ltb_true in Hstrict as [Hstrict _]. congruence.
  - intros ->. rewrite (between_servers _ _ _ Hbet) in Hserver. lia.
Qed.

(** On binary64, two servers: the third customer finds both busy until
    time 3 (a tie), is assigned to server 0 and leaves it at time 4. *)
Lemma earliest_free_server_lowest_index_witness :
  let arrival_times := [1; 1; 2]%float in
  let service_times := [2; 2; 1]%float in
  ∃ st st' server next_free_time departureTime,
    after arrival_times service_times 2 2 = Return st ∧
    after arrival_times service_times 2 3 = Return st' ∧
    length (departure_times st) = Z.to_nat 2 ∧
    argmin (departure_times st) = Return server ∧
    server < length (departure_times st) ∧
    departure_times st !! server = Some next_free_time ∧
    departureTime =
      ((if 2%float <? next_free_time then next_free_time else 2%float)
       + 1%float)%num ∧
    departure_times st' = <[server := departureTime]> (departure_times st) ∧
    departure_times st' !! server = Some departureTime ∧
    (∀ k x, k ≠ server →
       departure_times st !! k = Some x → departure_times st' !! k = Some x) ∧
    (∀ k x, departure_times st !! k = Some x →
       (next_free_time <=? x)%num = true) ∧
    (∀ k x, departure_times st !! k = Some x →
       (x <=? next_free_time)%num = true → server ≤ k) ∧
    (2%Z = 1%Z → server = 0) ∧
    departure_times st = [3; 3]%float ∧
    server = 0 ∧
    departure_times st' = [4; 3]%float.
Proof.
  intros arrival_times service_times.
  assert (not_negative arrival_times ∧ not_negative service_times ∨
            (∀ x : float, num_is_nan x = false)) as Hstreams
    by (left; split; repeat constructor).
  destruct (earliest_free_server_lowest_index (T := float)
              arrival_times service_times 2 3
              ltac:(lia) eq_refl eq_refl Hstreams 2 2%float 1%float
              eq_refl eq_refl)
    as (st & st' & server & next_free_time & departureTime
        & Hst & Hst' & Hlen & Hargmin & Hin & Hnft & Hdep & Hpool & Hnew
        & Hothers & Hmin & Htie & Hone).
  exists st, st', server, next_free_time, departureTime.
  do 13 (split; [assumption|]).
  assert (Return st = Return {|
            departure_times := [3; 3]%float; queue_length := 0;
            queue_lengths := [0; 0]%Z; response_times := [2; 2]%float |})
    as [= Hst0] by (rewrite <- Hst; vm_compute; reflexivity).
  assert (Return st' = Return {|
            departure_times := [4; 3]%float; queue_length := 0;
            queue_lengths := [0; 0; 1]%Z; response_times := [2; 2; 2]%float |})
    as [= Hst0'] by (rewrite <- Hst'; vm_compute; reflexivity).
  rewrite Hst0 in Hargmin. rewrite Hst0, Hst0'. simpl.
  split; [reflexivity|]. split; [|reflexivity].
  vm_compute in Hargmin. by injection Hargmin.
Defined.
(** ** Servers that have not been used yet *)

Section IdleServers.
Context {T : Type} `{Num T}.
Local Open Scope num_scope.
Implicit Types (st : LoopState T) (arrival_times service_times : list T).

Lemma filter_ne_absent (server : nat) (idle : list nat) :
  server ∉ idle → filter (λ j, j ≠ server) idle = idle.
Proof.
  induction idle as [|j idle IH]; [done|].
  intros [Hne Hni]%not_elem_of_cons.
  rewrite filter_cons, decide_True by done. by rewrite IH.
Qed.

Lemma filter_ne_length (server : nat) (idle : list nat) :
  NoDup idle → length idle ≤ S (length (filter (λ j, j ≠ server) idle)).
Proof.
  induction 1 as [|j idle Hj Hnd IH]; simpl; [lia|].
  rewrite filter_cons. destruct (decide (j ≠ server)) as [|Heq]; simpl; [lia|].
  assert (j = server) as -> by (destruct (decide (j = server)); [done | by destruct Heq]).
  rewrite filter_ne_absent by done. lia.
Qed.

Lemma idle_servers_initial k : idle_servers k 0 (initial k).
Proof.
  exists (seq 0 (Z.to_nat k)). split; [apply NoDup_seq|].
  split; [rewrite length_seq; lia|].
  intros j [_ Hj]%elem_of_seq. simpl. by apply lookup_replicate_2.
Qed.

Lemma idle_servers_served k m st server arrival service nft :
  idle_servers k m st →
  idle_servers k (S m) (served st server arrival service nft).
Proof.
  intros (idle & Hnd & Hlen & Hidle).
  exists (filter (λ j, j ≠ server) idle). split; [by apply NoDup_filter|]. split.
  - pose proof (filter_ne_length server idle Hnd). lia.
  - intros j [Hne Hj]%list_elem_of_filter. simpl.
    rewrite list_lookup_insert_ne by done. by apply Hidle.
Qed.

Lemma after_idle_servers arrival_times service_times k m st :
  after arrival_times service_times k m = Return st → idle_servers k m st.
Proof.
  revert st. induction m as [|m IH]; intros st Hst.
  - injection Hst as <-. apply idle_servers_initial.
  - rewrite after_S in Hst. apply bind_Return in Hst as (st0 & Hst0 & Hc).
    apply customer_inv in Hc as (? & ? & ? & ? & _ & _ & _ & _ & ->).
    by apply idle_servers_served, IH.
Qed.

Lemma idle_server_exists k m st :
  idle_servers k m st → (Z.of_nat m < k)%Z →
  ∃ j, departure_times st !! j = Some num_zero.
Proof.
  intros (idle & _ & Hlen & Hidle) Hm.
  destruct idle as [|j idle]; [simpl in Hlen; lia|].
  exists j. apply Hidle. by left.
Qed.

End IdleServers.

(** C8: with more servers than customers and arrival times that are not
    negative, the loop returns one log entry per customer, every logged
    queue length is 0, and every customer finds its server free (the
    arrival is not earlier than the server's next-free-time), so its
    service starts at its arrival: the server's next-free-time becomes
    arrival plus service duration. *)
Theorem more_servers_than_customers_nobody_waits {T : Type} `{NumOrder T}
    (arrival_times service_times : list T) (servers total_customers : Z) :
  (total_customers < servers)%Z →
  length arrival_times = Z.to_nat total_customers →
  length service_times = Z.to_nat total_customers →
  not_negative arrival_times →
  ∃ final,
    simulate arrival_times service_times servers total_customers = Return final ∧
    length (queue_lengths final) = Z.to_nat total_customers ∧
    length (response_times final) = Z.to_nat total_customers ∧
    (∀ i q, queue_lengths final !! i = Some q → q = 0%Z) ∧
    ∀ i arrival service,
      arrival_times !! i = Some arrival → service_times !! i = Some service →
      ∃ st st' server next_free_time,
        after arrival_times service_times servers i = Return st ∧
        after arrival_times service_times servers (S i) = Return st' ∧
        argmin (departure_times st) = Return server ∧
        departure_times st !! server = Some next_free_time ∧
        (arrival <? next_free_time)%num = false ∧
        departure_times st' =
          <[server := (arrival + service)%num]> (departure_times st) ∧
        queue_lengths final !! i = Some 0%Z ∧
        response_times final !! i = Some (arrival + service - arrival)%num.
Proof.
  intros Hlt Hla Hls Hpos.
  destruct (decide (1 ≤ servers)%Z) as [Hk | Hk]; last first.
  { assert (Z.to_nat total_customers = 0%nat) as Hn by lia.
    rewrite Hn in Hla, Hls.
    apply nil_length_inv in Hla as ->. apply nil_length_inv in Hls as ->.
    exists (initial servers). unfold simulate. rewrite Hn.
    split; [done|]. split; [done|]. split; [done|]. split; [done|].
    by intros i arrival service Ha. }
  destruct (run_trace arrival_times service_times servers total_customers)
    as (final & Hfinal & Hbet & Htrace); [done..|].
  assert (∀ i arrival service,
    arrival_times !! i = Some arrival → service_times !! i = Some service →
    ∃ st server nft,
      after arrival_times service_times servers i = Return st ∧
      argmin (departure_times st) = Return server ∧
      departure_times st !! server = Some nft ∧
      (arrival <? nft)%num = false ∧
      after arrival_times service_times servers (S i) =
        Return (served st server arrival service nft) ∧
      queue_lengths final !! i = Some 0%Z ∧
      response_times final !! i = Some (arrival + service - arrival)%num)
    as Hfree.
  { intros i arrival service Ha Hs.
    destruct (Htrace i arrival service Ha Hs)
      as (st & server & nft & Hst & _ & Hm & Hn & Hst' & Hq & Hr).
    assert ((arrival <? nft)%num = false) as Hserved.
    { pose proof (lookup_lt_Some _ _ _ Ha) as Hi.
      destruct (idle_server_exists servers i st) as [j Hj];
        [by eapply after_idle_servers | lia |].
      destruct (argmin_spec _ _ Hm) as (v & Hv & [Hnan | [_ (_ & Hmin & _)]]);
        assert (v = nft) as -> by congruence.
      - by apply num_nan_not_ltb.
      - apply num_leb_not_ltb.
        apply (num_leb_trans _ num_zero); [by eapply Hmin|].
        by eapply Forall_lookup_1 in Hpos. }
    rewrite Hserved in Hq, Hr. by exists st, server, nft. }
  exists final. split; [done|]. split; [apply Hbet|]. split; [apply Hbet|]. split.
  - intros i q Hq.
    pose proof (lookup_lt_Some _ _ _ Hq) as Hi.
    rewrite (between_queue_lengths _ _ _ Hbet) in Hi.
    destruct (lookup_lt_is_Some_2 arrival_times i) as [arrival Ha]; [lia|].
    destruct (lookup_lt_is_Some_2 service_times i) as [service Hs]; [lia|].
    destruct (Hfree i arrival service Ha Hs) as (_ & _ & _ & _ & _ & _ & _ & _ & Hq' & _).
    congruence.
  - intros i arrival service Ha Hs.
    destruct (Hfree i arrival service Ha Hs)
      as (st & server & nft & Hst & Hm & Hn & Hserved & Hst' & Hq & Hr).
    exists st, (served st server arrival service nft), server, nft.
    repeat split; try done. simpl. by rewrite Hserved.
Qed.

(** On binary64: three servers, two customers whose service times overlap. *)
Lemma more_servers_than_customers_nobody_waits_witness :
  let arrival_times := [1; 1.5]%float in
  let service_times := [2; 2]%float in
  ∃ final,
    simulate arrival_times service_times 3 2 = Return final ∧
    length (queue_lengths final) = Z.to_nat 2 ∧
    length (response_times final) = Z.to_nat 2 ∧
    (∀ i q, queue_lengths final !! i = Some q → q = 0%Z) ∧
    ∀ i arrival service,
      arrival_times !! i = Some arrival → service_times !! i = Some service →
      ∃ st st' server next_free_time,
        after arrival_times service_times 3 i = Return st ∧
        after arrival_times service_times 3 (S i) = Return st' ∧
        argmin (departure_times st) = Return server ∧
        departure_times st !! server = Some next_free_time ∧
        (arrival <? next_free_time)%num = false ∧
        departure_times st' =
          <[server := (arrival + service)%num]> (departure_times st) ∧
        queue_lengths final !! i = Some 0%Z ∧
        response_times final !! i = Some (arrival + service - arrival)%num.
Proof.
  intros arrival_times service_times.
  apply (more_servers_than_customers_nobody_waits (T := float)
           arrival_times service_times 3 2).
  - lia.
  - reflexivity.
  - reflexivity.
  - repeat constructor.
Defined.

(** ** Response times and rounding *)

Section ExactFacts.
Context {T : Type} `{NumExact T}.
Local Open Scope num_scope.

Lemma num_add_sub_l (x y : T) : x + y - x = y.
Proof. by rewrite num_add_comm, num_add_sub. Qed.


End ExactFacts.

(** C9 (as the code has it): with one customer, at least one server and an
    arrival time that is not negative, the loop logs queue length 0 and the
    response time [(arrival + service) - arrival]; this is the service
    duration when the arithmetic is exact. *)
Theorem single_customer_served_at_once {T : Type} `{Num T}
    (arrival service : T) (servers : Z) :
  (1 ≤ servers)%Z →
  (arrival <? num_zero)%num = false →
  ∃ final,
    simulate [arrival] [service] servers 1 = Return final ∧
    queue_lengths final = [0%Z] ∧
    response_times final = [(arrival + service - arrival)%num] ∧
    (NumExact T → response_times final = [service]).
Proof.
  intros Hk Hpos.
  destruct (after_step [arrival] [service] servers 0 arrival service)
    as (st & server & nft & Hst & _ & _ & Hn & Hfinal); [done | simpl; lia.. | done | done |].
  rewrite after_0 in Hst. injection Hst as <-.
  apply lookup_replicate_1 in Hn as [-> _].
  exists (served (initial servers) server arrival service num_zero).
  split; [done|]. simpl. rewrite Hpos. split; [done|]. split; [done|].
  intros Hexact. by rewrite num_add_sub_l.
Qed.

Lemma single_customer_served_at_once_witness :
  ∃ final,
    simulate [Q2Qc (3 # 10)] [Q2Qc (6 # 10)] 2 1 = Return final ∧
    queue_lengths final = [0%Z] ∧
    response_times final = [(Q2Qc (3 # 10) + Q2Qc (6 # 10) - Q2Qc (3 # 10))%num] ∧
    response_times final = [Q2Qc (6 # 10)].
Proof.
  destruct (single_customer_served_at_once (T := Qc) (Q2Qc (3 # 10)) (Q2Qc (6 # 10)) 2)
    as (final & Hfinal & Hq & Hr & Hexact).
  - lia.
  - vm_compute. reflexivity.
  - exists final. split; [exact Hfinal|]. split; [exact Hq|]. split; [exact Hr|].
    apply Hexact. exact RationalLaws.Qc_exact.
Defined.



(** ** Next-free-times over a run *)

Section SteadyFacts.
Context {T : Type} `{NumOrder T}.
Local Open Scope num_scope.
Implicit Types (st : LoopState T) (arrival_times service_times : list T).

Lemma steady_served arrival_times service_times servers i st
    arrival service server next_free_time :
  steady arrival_times service_times servers →
  after arrival_times service_times servers i = Return st →
  arrival_times !! i = Some arrival →
  service_times !! i = Some service →
  departure_times st !! server = Some next_free_time →
  let departure :=
    (if arrival <? next_free_time then next_free_time else arrival) + service in
  (next_free_time <=? departure) = true ∧
  (arrival <=? departure) = true ∧
  ∀ k x y,
    departure_times st !! k = Some x →
    departure_times (served st server arrival service next_free_time) !! k = Some y →
    (x <=? y) = true.
Proof.
  intros Hsteady Hst Ha Hs Hn.
  destruct (Hsteady i st arrival service server next_free_time Hst Ha Hs Hn)
    as (Hnan & Harr & Hadd).
  assert (num_is_nan next_free_time = false) as Hnft
    by (eapply Forall_lookup_1 in Hnan; [exact Hnan | done]).
  simpl in Hadd.
  pose proof (num_start_ge_next_free_time arrival next_free_time Harr Hnft) as Hge.
  pose proof (num_start_ge_arrival arrival next_free_time Harr) as Hga.
  set (start := if arrival <? next_free_time then next_free_time else arrival) in *.
  split; [|split].
  - by apply (num_leb_trans _ start).
  - by apply (num_leb_trans _ start).
  - intros k x y Hx Hy. simpl in Hy. destruct (decide (server = k)) as [-> | Hne].
    + rewrite list_lookup_insert_eq in Hy by by eapply lookup_lt_Some.
      fold start in Hy. simplify_eq. by apply (num_leb_trans _ start).
    + rewrite list_lookup_insert_ne in Hy by done. simplify_eq.
      apply num_leb_refl. by eapply Forall_lookup_1 in Hnan.
Qed.

Lemma steady_never_earlier arrival_times service_times servers i j sti stj k x y :
  steady arrival_times service_times servers →
  i ≤ j →
  after arrival_times service_times servers i = Return sti →
  after arrival_times service_times servers j = Return stj →
  no_nan (departure_times sti) →
  departure_times sti !! k = Some x →
  departure_times stj !! k = Some y →
  (x <=? y) = true.
Proof.
  intros Hsteady Hij Hi Hj Hnan Hx Hy. revert stj y Hj Hy.
  induction Hij as [|j Hij IH]; intros stj y Hj Hy.
  - rewrite Hi in Hj. injection Hj as <-. rewrite Hx in Hy. injection Hy as <-.
    apply num_leb_refl. by eapply Forall_lookup_1 in Hnan.
  - rewrite after_S in Hj. apply bind_Return in Hj as (st & Hst & Hc).
    apply customer_inv in Hc
      as (arrival & service & server & nft & Ha & Hs & _ & Hn & ->).
    destruct (lookup_lt_is_Some_2 (departure_times st) k) as [z Hz].
    { apply lookup_lt_Some in Hy. simpl in Hy. by rewrite length_insert in Hy. }
    apply (num_leb_trans _ z); [by apply (IH st)|].
    destruct (steady_served _ _ _ _ _ _ _ _ _ Hsteady Hst Ha Hs Hn) as (_ & _ & Hstep).
    by apply (Hstep k).
Qed.

End SteadyFacts.

(** Streams that are not negative give a steady run, on binary64 as well. *)
Lemma not_negative_steady {T : Type} `{NumTime T}
    (arrival_times service_times : list T) (servers : Z) :
  not_negative arrival_times → not_negative service_times →
  steady arrival_times service_times servers.
Proof.
  intros Harr Hsrv i st arrival service server nft Hst Ha Hs Hn.
  pose proof (after_not_negative _ _ _ _ _ Harr Hsrv Hst) as Hpos.
  assert ((num_zero <=? arrival)%num = true) as Hapos
    by (eapply Forall_lookup_1 in Harr; [exact Harr | done]).
  split; [by apply not_negative_no_nan|]. split; [by apply num_nonneg_not_nan|].
  simpl. apply num_add_increasing.
  - destruct (arrival <? nft)%num; [|done]. by eapply Forall_lookup_1 in Hpos.
  - by eapply Forall_lookup_1 in Hsrv.
Qed.

(** So do service durations that are not negative when the arithmetic is
    exact, whatever the arrival times. *)
Lemma exact_steady {T : Type} `{NumExact T}
    (arrival_times service_times : list T) (servers : Z) :
  not_negative service_times →
  steady arrival_times service_times servers.
Proof.
  intros Hsrv i st arrival service server nft Hst Ha Hs Hn.
  split; [apply Forall_forall; intros; apply num_nan_free|].
  split; [apply num_nan_free|]. simpl.
  assert ((num_zero <=? service)%num = true) as Hspos
    by (eapply Forall_lookup_1 in Hsrv; [exact Hsrv | done]).
  set (start := if (arrival <? nft)%num then nft else arrival).
  apply (num_leb_add_r _ _ start) in Hspos.
  by rewrite num_add_0_l, (num_add_comm service start) in Hspos.
Qed.

(** C10: when no service duration is negative (and no arrival time is
    negative, or the arithmetic is exact), a server's next-free-time never
    gets smaller from one point of the run to a later one, and each
    customer's departure time (the new next-free-time of its server,
    [max(arrival, old next-free-time) + service]) is at least the old
    next-free-time and at least the arrival time. *)
Theorem next_free_times_never_decrease {T : Type} `{NumTime T}
    (arrival_times service_times : list T) (servers total_customers : Z) :
  (1 ≤ servers)%Z →
  length arrival_times = Z.to_nat total_customers →
  length service_times = Z.to_nat total_customers →
  not_negative service_times →
  not_negative arrival_times ∨ NumExact T →
  (∀ i j, i ≤ j ≤ Z.to_nat total_customers →
     ∃ sti stj,
       after arrival_times service_times servers i = Return sti ∧
       after arrival_times service_times servers j = Return stj ∧
       length (departure_times sti) = Z.to_nat servers ∧
       length (departure_times stj) = Z.to_nat servers ∧
       ∀ k x y, departure_times sti !! k = Some x →
                departure_times stj !! k = Some y →
                (x <=? y)%num = true) ∧
  (∀ i arrival service,
     arrival_times !! i = Some arrival → service_times !! i = Some service →
     ∃ st st' server next_free_time departureTime,
       after arrival_times service_times servers i = Return st ∧
       after arrival_times service_times servers (S i) = Return st' ∧
       departure_times st !! server = Some next_free_time ∧
       departure_times st' = <[server := departureTime]> (departure_times st) ∧
       departureTime =
         ((if arrival <? next_free_time then next_free_time else arrival) + service)%num ∧
       (next_free_time <=? departureTime)%num = true ∧
       (arrival <=? departureTime)%num = true).
Proof.
  intros Hk Hla Hls Hsrv Hroute.
  assert (steady arrival_times service_times servers) as Hsteady.
  { destruct Hroute as [Harr | Hexact];
      [by apply not_negative_steady | by apply exact_steady]. }
  assert (∀ m st, after arrival_times service_times servers m = Return st →
                  no_nan (departure_times st)) as Hnan.
  { intros m st Hst. destruct Hroute as [Harr | Hexact].
    - apply not_negative_no_nan.
      by apply (after_not_negative arrival_times service_times servers m).
    - apply Forall_forall. intros. apply num_nan_free. }
  split.
  - intros i j [Hij Hj].
    destruct (after_returns arrival_times service_times servers i)
      as (sti & Hsti & Hbi); [lia..|].
    destruct (after_returns arrival_times service_times servers j)
      as (stj & Hstj & Hbj); [lia..|].
    exists sti, stj. split; [done|]. split; [done|].
    split; [apply Hbi|]. split; [apply Hbj|].
    intros k x y Hx Hy.
    exact (steady_never_earlier arrival_times service_times servers
             i j sti stj k x y Hsteady Hij Hsti Hstj (Hnan i sti Hsti) Hx Hy).
  - intros i arrival service Ha Hs.
    destruct (run_trace arrival_times service_times servers total_customers)
      as (final & _ & _ & Htrace); [done..|].
    destruct (Htrace i arrival service Ha Hs)
      as (st & server & nft & Hst & _ & _ & Hn & Hst' & _).
    destruct (steady_served _ _ _ _ _ _ _ _ _ Hsteady Hst Ha Hs Hn)
      as (Hold & Harrival & _).
    by exists st, (served st server arrival service nft), server, nft,
      ((if arrival <? nft then nft else arrival) + service)%num.
Qed.

(** On binary64: two servers, three customers, one service of zero length. *)
Lemma next_free_times_never_decrease_witness :
  let arrival_times := [1; 1.5; 1.75]%float in
  let service_times := [2; 0; 0.5]%float in
  (∀ i j, i ≤ j ≤ Z.to_nat 3 →
     ∃ sti stj,
       after arrival_times service_times 2 i = Return sti ∧
       after arrival_times service_times 2 j = Return stj ∧
       length (departure_times sti) = Z.to_nat 2 ∧
       length (departure_times stj) = Z.to_nat 2 ∧
       ∀ k x y, departure_times sti !! k = Some x →
                departure_times stj !! k = Some y →
                (x <=? y)%num = true) ∧
  (∀ i arrival service,
     arrival_times !! i = Some arrival → service_times !! i = Some service →
     ∃ st st' server next_free_time departureTime,
       after arrival_times service_times 2 i = Return st ∧
       after arrival_times service_times 2 (S i) = Return st' ∧
       departure_times st !! server = Some next_free_time ∧
       departure_times st' = <[server := departureTime]> (departure_times st) ∧
       departureTime =
         ((if arrival <? next_free_time then next_free_time else arrival) + service)%num ∧
       (next_free_time <=? departureTime)%num = true ∧
       (arrival <=? departureTime)%num = true).
Proof.
  intros arrival_times service_times.
  apply (next_free_times_never_decrease (T := float) arrival_times service_times 2 3).
  - lia.
  - reflexivity.
  - reflexivity.
  - repeat constructor.
  - left. repeat constructor.
Defined.

Lemma replay_honours_size {T : Type} `{Num T} (tape : list T) :
  honours_size (Replay.numpy tape).
Proof.
  intros scale size g. simpl. unfold Replay.draw. simpl.
  rewrite length_map, length_take, length_app, length_replicate. lia.
Qed.

(** ** The whole method *)

Section MethodFacts.
Context {T : Type} `{Num T} {np : Numpy T}.
Local Open Scope num_scope.

Lemma rand_bind_Return {A B} (m : Rand A) (f : A → Rand B) g b g' :
  (m ≫= f) g = (Return b, g') ↔
  ∃ a g1, m g = (Return a, g1) ∧ f a g1 = (Return b, g').
Proof.
  unfold mbind, rand_bind. destruct (m g) as [[a|e] g1]; split.
  - eauto.
  - by intros (? & ? & [= <- <-] & ?).
  - done.
  - by intros (? & ? & ? & ?).
Qed.

Lemma rand_bind_fst_Return {A B} (m : Rand A) (f : A → Rand B) g b :
  ((m ≫= f) g).1 = Return b ↔
  ∃ a g1, m g = (Return a, g1) ∧ (f a g1).1 = Return b.
Proof.
  unfold mbind, rand_bind. destruct (m g) as [[a|e] g1]; split.
  - eauto.
  - by intros (? & ? & [= <- <-] & ?).
  - done.
  - by intros (? & ? & ? & ?).
Qed.

Lemma lift_Return {A} (m : outcome A) g a g' :
  lift m g = (Return a, g') ↔ m = Return a ∧ g' = g.
Proof. unfold lift. split; [by intros [= -> ->] | by intros [-> ->]]. Qed.

(** What a returning call has computed. *)
Lemma run_simulation_Return (self : MMQueueSimulator T) g metrics :
  (run_simulation self g).1 = Return metrics →
  ∃ st capacity,
    int_mul (servers self) (service_rate self) = Return capacity ∧
    (capacity =? num_zero) = false ∧
    metrics = {|
      average_queue_length := mean_int (queue_lengths st);
      average_response_time := mean (response_times st);
      server_utilization := arrival_rate self / capacity;
      metrics_queue_lengths := queue_lengths st
    |}.
Proof.
  unfold run_simulation. intros Hrun.
  apply rand_bind_fst_Return in Hrun as (_ & g0 & _ & Hrun).
  apply rand_bind_fst_Return in Hrun as (arrival_scale & g1 & _ & Hrun).
  apply rand_bind_fst_Return in Hrun as (interarrival_times & g2 & _ & Hrun).
  apply rand_bind_fst_Return in Hrun as (service_scale & g3 & _ & Hrun).
  apply rand_bind_fst_Return in Hrun as (service_times & g4 & _ & Hrun).
  apply rand_bind_fst_Return in Hrun as (st & g5 & _ & Hrun).
  apply rand_bind_fst_Return in Hrun as (capacity & g6 & [Hcap _]%lift_Return & Hrun).
  apply rand_bind_fst_Return in Hrun as (utilization & g7 & [Hdiv _]%lift_Return & Hrun).
  simpl in Hrun. injection Hrun as <-.
  unfold truediv in Hdiv. destruct (capacity =? num_zero) eqn:Hzero; [done|].
  injection Hdiv as <-. by exists st, capacity.
Qed.

End MethodFacts.

(** C7: what [run_simulation] returns, and the generator state it leaves,
    do not depend on the state numpy's global generator was in when the
    method was called: the method reseeds it with 42 before drawing.  Two
    runs of the same simulator therefore produce the same metrics, field
    by field. *)
Theorem run_simulation_reproducible {T : Type} `{Num T} {np : Numpy T}
    (self : MMQueueSimulator T) (g1 g2 : rng) :
  run_simulation self g1 = run_simulation self g2.
Proof. reflexivity. Qed.

Section MethodReturns.
Context {T : Type} `{Num T} {np : Numpy T}.
Local Open Scope num_scope.

Lemma length_cumsum_from (l : list T) : ∀ acc, length (cumsum_from acc l) = length l.
Proof. induction l as [|x l IH]; intros acc; simpl; [done | by rewrite IH]. Qed.

Lemma length_cumsum (l : list T) : length (cumsum l) = length l.
Proof. destruct l; simpl; [done | by rewrite length_cumsum_from]. Qed.

Lemma np_random_exponential_Return (scale : T) (size : Z) g :
  honours_size np → scale_accepted scale = true → (0 ≤ size)%Z →
  ∃ samples g',
    np_random_exponential scale size g = (Return samples, g') ∧
    length samples = Z.to_nat size.
Proof.
  intros Hsize Hscale Hnonneg. unfold np_random_exponential.
  apply negb_true_iff in Hscale. rewrite Hscale.
  rewrite (proj2 (Z.ltb_ge size 0)) by done.
  pose proof (Hsize scale (Z.to_nat size) g) as Hlen.
  destruct (exponential scale (Z.to_nat size) g) as [samples g']. eauto.
Qed.

(** A call with parameters that pass every check returns. *)
Lemma run_simulation_returns (self : MMQueueSimulator T) g
    (arrival_scale service_scale capacity : T) :
  honours_size np →
  truediv num_one (arrival_rate self) = Return arrival_scale →
  scale_accepted arrival_scale = true →
  truediv num_one (service_rate self) = Return service_scale →
  scale_accepted service_scale = true →
  (0 ≤ total_customers self)%Z →
  (1 ≤ servers self)%Z →
  int_mul (servers self) (service_rate self) = Return capacity →
  (capacity =? num_zero) = false →
  ∃ metrics,
    (run_simulation self g).1 = Return metrics ∧
    server_utilization metrics = arrival_rate self / capacity ∧
    length (metrics_queue_lengths metrics) = Z.to_nat (total_customers self).
Proof.
  intros Hsize Ha Hsa Hs Hss Hn Hk Hcap Hzero.
  destruct (np_random_exponential_Return arrival_scale (total_customers self)
              (seed_state 42) Hsize Hsa Hn) as (interarrival_times & g1 & Hia & Hlia).
  destruct (np_random_exponential_Return service_scale (total_customers self)
              g1 Hsize Hss Hn) as (service_times & g2 & Hst & Hlst).
  destruct (after_returns (cumsum interarrival_times) service_times
              (servers self) (Z.to_nat (total_customers self)))
    as (st & Hloop & Hbet); [done | rewrite length_cumsum; lia | lia |].
  exists {|
    average_queue_length := mean_int (queue_lengths st);
    average_response_time := mean (response_times st);
    server_utilization := arrival_rate self / capacity;
    metrics_queue_lengths := queue_lengths st
  |}.
  split; [|split; [reflexivity|simpl; apply Hbet]].
  unfold run_simulation.
  apply rand_bind_fst_Return. exists (), (seed_state 42). split; [done|].
  apply rand_bind_fst_Return. exists arrival_scale, (seed_state 42).
  split; [by rewrite Ha|].
  apply rand_bind_fst_Return. exists interarrival_times, g1. split; [done|].
  apply rand_bind_fst_Return. exists service_scale, g1. split; [by rewrite Hs|].
  apply rand_bind_fst_Return. exists service_times, g2. split; [done|].
  apply rand_bind_fst_Return. exists st, g2. split; [by unfold simulate; rewrite Hloop|].
  apply rand_bind_fst_Return. exists capacity, g2. split; [by rewrite Hcap|].
  apply rand_bind_fst_Return. exists (arrival_rate self / capacity), g2.
  split; [by unfold truediv; rewrite Hzero|]. done.
Qed.

End MethodReturns.

(** C5: whenever [run_simulation] returns, the reported utilization is
    [arrival_rate / (servers * service_rate)], with [servers] converted to
    a float; nothing of the simulated trace enters it.  On binary64, with
    arrival rate 0.5, service rate 1.0 and one server, the call returns and
    reports exactly 0.5, for every customer count that is not negative and
    every generator that returns as many samples as asked. *)
Theorem server_utilization_closed_form :
  (∀ (T : Type) (H : Num T) (np : Numpy T) (self : MMQueueSimulator T) g metrics,
     (run_simulation self g).1 = Return metrics →
     ∃ k, of_int (servers self) = Some k ∧
          server_utilization metrics =
            (arrival_rate self / (k * service_rate self))%num) ∧
  (∀ (np : Numpy float) (total_customers : Z) g,
     honours_size np → (0 ≤ total_customers)%Z →
     ∃ metrics,
       (run_simulation
          (init (T := float) 0.5%float 1%float 1 (Some total_customers)) g).1
         = Return metrics ∧
       server_utilization metrics = 0.5%float).
Proof.
  split.
  - intros T H np self g metrics Hrun.
    apply run_simulation_Return in Hrun as (st & capacity & Hcap & _ & ->).
    unfold int_mul in Hcap. destruct (of_int (servers self)) as [k|]; [|done].
    injection Hcap as <-. by exists k.
  - intros np total_customers g Hsize Hn.
    destruct (run_simulation_returns
                (init (T := float) 0.5%float 1%float 1 (Some total_customers)) g
                2%float 1%float 1%float) as (metrics & Hrun & Hu & _);
      [done | reflexivity | reflexivity | reflexivity | reflexivity | done
      | simpl; lia | reflexivity | reflexivity |].
    exists metrics. split; [done|]. rewrite Hu. reflexivity.
Qed.

Lemma server_utilization_closed_form_witness :
  ∃ metrics,
    (run_simulation (np := Replay.numpy [0.25%float; 1%float; 0.5%float; 2%float])
       (init (T := float) 0.5%float 1%float 1 (Some 2%Z)) []).1 = Return metrics ∧
    server_utilization metrics = 0.5%float ∧
    ∃ k, of_int 1 = Some k ∧
         server_utilization metrics = (0.5%float / (k * 1%float))%num.
Proof.
  destruct server_utilization_closed_form as [Hform Hhalf].
  destruct (Hhalf (Replay.numpy [0.25%float; 1%float; 0.5%float; 2%float]) 2%Z [])
    as (metrics & Hrun & Hu).
  - apply replay_honours_size.
  - lia.
  - exists metrics. split; [exact Hrun|]. split; [exact Hu|].
    exact (Hform _ _ _ _ _ _ Hrun).
Defined.

(** ** Calls with parameters the spec calls invalid *)

Section MethodRaises.
Context {T : Type} `{Num T} {np : Numpy T}.
Local Open Scope num_scope.
Implicit Types (self : MMQueueSimulator T).

Lemma rand_bind_raise {A B} (m : Rand A) (f : A → Rand B) g e g' :
  m g = (Raise e, g') → (m ≫= f) g = (Raise e, g').
Proof. unfold mbind, rand_bind. by intros ->. Qed.

Lemma rand_bind_step {A B} (m : Rand A) (f : A → Rand B) g a g' :
  m g = (Return a, g') → (m ≫= f) g = f a g'.
Proof. unfold mbind, rand_bind. by intros ->. Qed.

Lemma truediv_cases (a b : T) :
  truediv a b = Raise ZeroDivisionError ∧ (b =? num_zero) = true ∨
  truediv a b = Return (a / b) ∧ (b =? num_zero) = false.
Proof. unfold truediv. destruct (b =? num_zero); auto. Qed.

Lemma np_random_exponential_cases (scale : T) (size : Z) g :
  honours_size np →
  np_random_exponential scale size g = (Raise ValueError, g) ∧
    (scale_accepted scale = false ∨ (size < 0)%Z) ∨
  ∃ samples g',
    np_random_exponential scale size g = (Return samples, g') ∧
    length samples = Z.to_nat size ∧
    scale_accepted scale = true ∧ (0 ≤ size)%Z.
Proof.
  intros Hsize. unfold np_random_exponential, scale_accepted.
  destruct (negb (num_is_nan scale) && num_signbit scale); [by left; auto|].
  destruct (Z.ltb_spec size 0) as [Hneg | Hnonneg]; [by left; auto|].
  pose proof (Hsize scale (Z.to_nat size) g) as Hlen.
  destruct (exponential scale (Z.to_nat size) g) as [samples g']. right.
  by exists samples, g'.
Qed.

(** With no server the first customer already fails: [np.argmin([])]. *)
Lemma simulate_no_servers (arrival_times service_times : list T) (k n : Z) :
  (k < 1)%Z → (1 ≤ n)%Z →
  length arrival_times = Z.to_nat n → length service_times = Z.to_nat n →
  simulate arrival_times service_times k n = Raise ValueError.
Proof.
  intros Hk Hn Hla Hls. unfold simulate, after.
  destruct (Z.to_nat n) as [|m] eqn:Hm; [lia|].
  destruct arrival_times as [|arrival ?]; [done|].
  destruct service_times as [|service ?]; [done|].
  simpl. unfold customer, initial. simpl.
  by replace (Z.to_nat k) with 0%nat by lia.
Qed.

End MethodRaises.

Section MethodRejects.
Context {T : Type} `{NumTime T} {np : Numpy T}.
Local Open Scope num_scope.

(** A rate that is not positive is zero or yields a scale numpy rejects. *)
Lemma rate_not_positive (rate : T) :
  (rate <=? num_zero) = true →
  (rate =? num_zero) = true ∨ scale_accepted (num_one / rate) = false.
Proof.
  intros Hle. rewrite num_eqb_leb, Hle. simpl.
  destruct (num_zero <=? rate) eqn:Hge; [by left | right].
  apply num_leb_nan in Hle as [Hrate Hzero].
  destruct (num_negative_rate rate) as [Hnan Hsign].
  { by rewrite num_ltb_leb, Hge, Hrate, Hzero. }
  unfold scale_accepted. by rewrite Hnan, Hsign.
Qed.

End MethodRejects.

(** C2 (as the code has it): with a generator that honours [size], a call
    whose arrival rate or service rate is not positive, whose customer
    count is negative, or which has no server for at least one customer,
    raises ZeroDivisionError or ValueError and returns no metrics. *)
Theorem invalid_parameters_raise {T : Type} `{NumTime T} {np : Numpy T}
    (self : MMQueueSimulator T) (g : rng) :
  honours_size np →
  (arrival_rate self <=? num_zero)%num = true ∨
  (service_rate self <=? num_zero)%num = true ∨
  (total_customers self < 0)%Z ∨
  ((servers self < 1)%Z ∧ (1 ≤ total_customers self)%Z) →
  ∃ e g',
    run_simulation self g = (Raise e, g') ∧
    (e = ZeroDivisionError ∨ e = ValueError).
Proof.
  intros Hsize Hinvalid. unfold run_simulation.
  rewrite (rand_bind_step _ _ g () (seed_state 42)) by done.
  destruct (truediv_cases num_one (arrival_rate self)) as [[Ha Haz] | [Ha Haz]].
  { exists ZeroDivisionError, (seed_state 42). split; [|by left].
    apply rand_bind_raise. by rewrite Ha. }
  rewrite (rand_bind_step _ _ _ (num_one / arrival_rate self)%num (seed_state 42))
    by by rewrite Ha.
  destruct (np_random_exponential_cases (num_one / arrival_rate self)%num
              (total_customers self) (seed_state 42) Hsize)
    as [[Hia _] | (interarrival_times & g1 & Hia & Hlia & Hsa & Hn)].
  { exists ValueError, (seed_state 42). split; [|by right]. by apply rand_bind_raise. }
  rewrite (rand_bind_step _ _ _ interarrival_times g1) by done.
  destruct (truediv_cases num_one (service_rate self)) as [[Hs Hsz] | [Hs Hsz]].
  { exists ZeroDivisionError, g1. split; [|by left].
    apply rand_bind_raise. by rewrite Hs. }
  rewrite (rand_bind_step _ _ _ (num_one / service_rate self)%num g1)
    by by rewrite Hs.
  destruct (np_random_exponential_cases (num_one / service_rate self)%num
              (total_customers self) g1 Hsize)
    as [[Hst _] | (service_times & g2 & Hst & Hlst & Hss & _)].
  { exists ValueError, g1. split; [|by right]. by apply rand_bind_raise. }
  rewrite (rand_bind_step _ _ _ service_times g2) by done.
  destruct Hinvalid as [Hrate | [Hrate | [Hneg | [Hk Hone]]]].
  - destruct (rate_not_positive _ Hrate); congruence.
  - destruct (rate_not_positive _ Hrate); congruence.
  - lia.
  - exists ValueError, g2. split; [|by right]. apply rand_bind_raise.
    unfold lift. f_equal. apply simulate_no_servers; [done.. | |done].
    by rewrite length_cumsum.
Qed.

(** On binary64: no server, three customers. *)
Lemma invalid_parameters_raise_witness :
  ∃ e g',
    run_simulation (np := Replay.numpy [1; 2; 3]%float)
      (init (T := float) 0.5%float 1%float 0 (Some 3%Z)) [] = (Raise e, g') ∧
    (e = ZeroDivisionError ∨ e = ValueError).
Proof.
  apply (invalid_parameters_raise (T := float)
           (np := Replay.numpy [1; 2; 3]%float)).
  - apply replay_honours_size.
  - right. right. right. simpl. lia.
Defined.

(** ** Arrival times: [np.cumsum] *)

Section CumsumFacts.
Context {T : Type} `{Num T}.
Local Open Scope num_scope.

Lemma cumsum_from_lookup_0 (l : list T) acc :
  cumsum_from acc l !! 0 = (x ← l !! 0; Some (acc + x)).
Proof. by destruct l. Qed.

Lemma cumsum_from_lookup_S (l : list T) : ∀ acc i,
  cumsum_from acc l !! S i =
  (t ← cumsum_from acc l !! i; x ← l !! S i; Some (t + x)).
Proof.
  induction l as [|x l IH]; intros acc i; [done|].
  destruct i as [|i]; simpl.
  - by rewrite cumsum_from_lookup_0.
  - by rewrite IH.
Qed.

Lemma cumsum_lookup_S (l : list T) i :
  cumsum l !! S i = (t ← cumsum l !! i; x ← l !! S i; Some (t + x)).
Proof.
  destruct l as [|x l]; [done|].
  destruct i as [|i]; simpl.
  - by rewrite cumsum_from_lookup_0.
  - by rewrite cumsum_from_lookup_S.
Qed.

End CumsumFacts.


Section CumsumOrder.
Context {T : Type} `{NumTime T}.
Local Open Scope num_scope.

Lemma cumsum_from_not_negative (l : list T) : ∀ acc,
  (num_zero <=? acc) = true → not_negative l → not_negative (cumsum_from acc l).
Proof.
  induction l as [|x l IH]; intros acc Hacc Hl; [constructor|].
  apply Forall_cons in Hl as [Hx Hl]. simpl.
  assert ((num_zero <=? acc + x) = true) as Hsum by by apply num_add_nonneg.
  constructor; [done|]. by apply IH.
Qed.

Lemma cumsum_not_negative (l : list T) : not_negative l → not_negative (cumsum l).
Proof.
  destruct l as [|x l]; [done|]. intros [Hx Hl]%Forall_cons. simpl.
  constructor; [done|]. by apply cumsum_from_not_negative.
Qed.

Lemma cumsum_step (l : list T) i x y :
  not_negative l →
  cumsum l !! i = Some x → cumsum l !! S i = Some y → (x <=? y) = true.
Proof.
  intros Hl Hx Hy. rewrite cumsum_lookup_S, Hx in Hy. simpl in Hy.
  destruct (l !! S i) as [gap|] eqn:Hgap; [|done]. injection Hy as <-.
  apply num_add_increasing.
  - by eapply (Forall_lookup_1 _ _ _ _ (cumsum_not_negative l Hl)).
  - by eapply (Forall_lookup_1 _ _ _ _ Hl).
Qed.

End CumsumOrder.

(** When no interarrival time is negative, the arrival times (one per
    customer, each the one before it plus the next interarrival time) are
    not negative and never decrease from one customer to a later one.
    This holds on binary64 too: rounding cannot turn the sum into an
    earlier time. *)
Theorem arrival_times_never_decrease {T : Type} `{NumTime T}
    (interarrival_times : list T) :
  not_negative interarrival_times →
  length (cumsum interarrival_times) = length interarrival_times ∧
  cumsum interarrival_times !! 0 = interarrival_times !! 0 ∧
  (∀ i previous gap,
     cumsum interarrival_times !! i = Some previous →
     interarrival_times !! S i = Some gap →
     cumsum interarrival_times !! S i = Some (previous + gap)%num) ∧
  not_negative (cumsum interarrival_times) ∧
  ∀ i j earlier later,
    i ≤ j →
    cumsum interarrival_times !! i = Some earlier →
    cumsum interarrival_times !! j = Some later →
    (earlier <=? later)%num = true.
Proof.
  intros Hgaps.
  pose proof (cumsum_not_negative _ Hgaps) as Hpos.
  split; [apply length_cumsum|]. split; [by destruct interarrival_times|].
  split; [by intros i previous gap Hi Hgap; rewrite cumsum_lookup_S, Hi; simpl; rewrite Hgap|].
  split; [done|].
  intros i j earlier later Hij Hi Hj. revert later Hj.
  induction Hij as [|j Hij IH]; intros later Hj.
  - assert (later = earlier) as -> by congruence.
    apply num_leb_refl, num_nonneg_not_nan.
    by eapply (Forall_lookup_1 _ _ _ _ Hpos).
  - destruct (lookup_lt_is_Some_2 (cumsum interarrival_times) j) as [mid Hmid].
    { apply lookup_lt_Some in Hj. lia. }
    apply (num_leb_trans _ mid); [by apply IH|].
    exact (cumsum_step _ j mid later Hgaps Hmid Hj).
Qed.

Lemma arrival_times_never_decrease_witness :
  let interarrival_times := [0.5; 0.25; 0; 2]%float in
  cumsum interarrival_times = [0.5; 0.75; 0.75; 2.75]%float ∧
  length (cumsum interarrival_times) = length interarrival_times ∧
  cumsum interarrival_times !! 0 = interarrival_times !! 0 ∧
  (∀ i previous gap,
     cumsum interarrival_times !! i = Some previous →
     interarrival_times !! S i = Some gap →
     cumsum interarrival_times !! S i = Some (previous + gap)%num) ∧
  not_negative (cumsum interarrival_times) ∧
  ∀ i j earlier later,
    i ≤ j →
    cumsum interarrival_times !! i = Some earlier →
    cumsum interarrival_times !! j = Some later →
    (earlier <=? later)%num = true.
Proof.
  split; [vm_compute; reflexivity|].
  apply (arrival_times_never_decrease (T := float)).
  repeat constructor.
Defined.

(** ** Server selection: [np.argmin] on the pool *)

(** [np.argmin] raises ValueError on an empty pool and on no other; on
    any other pool it returns an index inside the pool, so that the lookup
    [departure_times[next_free_server]] on the next line does not raise. *)
Theorem argmin_raises_only_on_empty_pool {T : Type} `{Num T}
    (departure_times : list T) :
  departure_times = [] ∧ argmin departure_times = Raise ValueError ∨
  ∃ next_free_server next_free_time,
    departure_times ≠ [] ∧
    argmin departure_times = Return next_free_server ∧
    index departure_times next_free_server = Return next_free_time.
Proof.
  destruct departure_times as [|x l]; [by left|]. right.
  destruct (argmin_returns (x :: l)) as [j Hj]; [done|].
  destruct (lookup_lt_is_Some_2 (x :: l) j) as [v Hv]; [by apply argmin_lt|].
  exists j, v. split; [done|]. split; [done|]. by apply index_Return.
Qed.

Section ArgminNaN.
Context {T : Type} `{NumOrder T}.
Local Open Scope num_scope.

Lemma argmin_scan_nan (l : list T) mp mi i :
  num_is_nan mp = true → argmin_scan mp mi i l = mi.
Proof. intros Hnan. destruct l; simpl; by rewrite Hnan. Qed.

Lemma argmin_scan_first_nan (l : list T) : ∀ (mp : T) (mi i j : nat) (x : T),
  num_is_nan mp = false →
  l !! j = Some x → num_is_nan x = true →
  (∀ k y, k < j → l !! k = Some y → num_is_nan y = false) →
  argmin_scan mp mi i l = (i + j)%nat.
Proof.
  induction l as [|y l IH]; intros mp mi i j x Hmp Hj Hx Hbefore; [done|].
  simpl. rewrite Hmp. destruct j as [|j].
  - injection Hj as ->.
    destruct (mp <=? x) eqn:Hle.
    { apply num_leb_nan in Hle as [_ Hle]. congruence. }
    simpl. rewrite argmin_scan_nan by done. lia.
  - assert (num_is_nan y = false) as Hy by (apply (Hbefore 0 y); [lia|done]).
    assert (∀ k z, k < j → l !! k = Some z → num_is_nan z = false) as Hbefore'.
    { intros k z Hk Hz. apply (Hbefore (S k) z); [lia|done]. }
    destruct (negb (mp <=? y)).
    + rewrite (IH y i (S i) j x); [lia|done..].
    + rewrite (IH mp mi (S i) j x); [lia|done..].
Qed.

End ArgminNaN.

(** A NaN in the pool wins the selection: when some next-free-time is
    NaN, [np.argmin] returns the index of the first server whose
    next-free-time is NaN, whatever the other entries are. *)
Theorem argmin_picks_first_nan {T : Type} `{NumOrder T}
    (departure_times : list T) (server : nat) (next_free_time : T) :
  departure_times !! server = Some next_free_time →
  num_is_nan next_free_time = true →
  (∀ k x, k < server → departure_times !! k = Some x → num_is_nan x = false) →
  argmin departure_times = Return server.
Proof.
  intros Hserver Hnan Hbefore.
  destruct departure_times as [|x l]; [done|]. simpl. f_equal.
  destruct server as [|j].
  - injection Hserver as ->. by apply argmin_scan_nan.
  - apply (argmin_scan_first_nan l x 0 1 j next_free_time); [|done..|].
    + apply (Hbefore 0 x); [lia|done].
    + intros k y Hk Hy. apply (Hbefore (S k) y); [lia|done].
Qed.

Lemma argmin_picks_first_nan_witness :
  argmin [3; 0.5; nan; 0.25; nan]%float = Return 2.
Proof.
  apply (argmin_picks_first_nan (T := float) _ 2 nan).
  - reflexivity.
  - reflexivity.
  - intros [|[|k]] x Hk Hx; simpl in Hx; [| |lia]; injection Hx as <-; reflexivity.
Defined.

(** ** Who waits *)

(** The comment on the waiting branch, "if all servers are busy, the
    customer must wait", is what the loop does when the next-free-times
    are comparable (streams that are not negative, or a carrier without
    NaN): customer [i] is logged with queue length 1 exactly when its
    arrival is strictly earlier than the next-free-time of every server,
    and with 0 exactly when some server is free at its arrival. *)
Theorem customer_waits_iff_all_servers_busy {T : Type} `{NumTime T}
    (arrival_times service_times : list T) (servers total_customers : Z) :
  (1 ≤ servers)%Z →
  length arrival_times = Z.to_nat total_customers →
  length service_times = Z.to_nat total_customers →
  not_negative arrival_times ∧ not_negative service_times ∨
    (∀ x : T, num_is_nan x = false) →
  ∃ final,
    simulate arrival_times service_times servers total_customers = Return final ∧
    length (queue_lengths final) = Z.to_nat total_customers ∧
    ∀ i arrival service,
      arrival_times !! i = Some arrival → service_times !! i = Some service →
      ∃ st,
        after arrival_times service_times servers i = Return st ∧
        length (departure_times st) = Z.to_nat servers ∧
        (queue_lengths final !! i = Some 1%Z ↔
           ∀ k x, departure_times st !! k = Some x → (arrival <? x)%num = true) ∧
        (queue_lengths final !! i = Some 0%Z ↔
           ∃ k x, departure_times st !! k = Some x ∧ (x <=? arrival)%num = true).
Proof.
  intros Hk Hla Hls Hcomparable.
  destruct (run_trace arrival_times service_times servers total_customers)
    as (final & Hfinal & Hlogs & Htrace); [done..|].
  exists final. split; [done|]. split; [apply Hlogs|].
  intros i arrival service Ha Hs.
  destruct (Htrace i arrival service Ha Hs)
    as (st & server & nft & Hst & Hbet & Hm & Hn & _ & Hq & _).
  pose proof (after_no_nan _ _ _ _ _ Hcomparable Hst) as Hnan.
  destruct (argmin_least _ _ Hnan Hm) as (v & Hv & Hmin & _).
  assert (v = nft) as -> by congruence.
  assert (num_is_nan arrival = false) as Harrival.
  { destruct Hcomparable as [[Hpos _] | Hfree]; [|apply Hfree].
    apply num_nonneg_not_nan. by eapply (Forall_lookup_1 _ _ _ _ Hpos). }
  exists st. split; [done|]. split; [apply Hbet|]. rewrite Hq. split; split.
  - intros Hone k x Hx.
    destruct (arrival <? nft)%num eqn:Hlt; [|done].
    apply num_ltb_true in Hlt as (Hlt & _ & _).
    rewrite num_ltb_leb, Harrival.
    rewrite (Forall_lookup_1 _ _ _ _ Hnan Hx). simpl. rewrite !andb_true_r.
    destruct (x <=? arrival)%num eqn:Hle; [|done].
    pose proof (num_leb_trans nft x arrival (Hmin k x Hx) Hle). congruence.
  - intros Hall. by rewrite (Hall server nft Hn).
  - intros Hzero.
    destruct (arrival <? nft)%num eqn:Hlt; [done|].
    exists server, nft. split; [done|].
    apply num_ltb_false; [done| |done].
    by eapply (Forall_lookup_1 _ _ _ _ Hnan).
  - intros (k & x & Hx & Hle).
    rewrite (num_leb_not_ltb arrival nft); [done|].
    apply (num_leb_trans _ x); [by eapply Hmin | done].
Qed.

Lemma customer_waits_iff_all_servers_busy_witness :
  let arrival_times := [1; 1.5; 1.75]%float in
  let service_times := [2; 2; 2]%float in
  ∃ final,
    simulate arrival_times service_times 2 3 = Return final ∧
    length (queue_lengths final) = Z.to_nat 3 ∧
    ∀ i arrival service,
      arrival_times !! i = Some arrival → service_times !! i = Some service →
      ∃ st,
        after arrival_times service_times 2 i = Return st ∧
        length (departure_times st) = Z.to_nat 2 ∧
        (queue_lengths final !! i = Some 1%Z ↔
           ∀ k x, departure_times st !! k = Some x → (arrival <? x)%num = true) ∧
        (queue_lengths final !! i = Some 0%Z ↔
           ∃ k x, departure_times st !! k = Some x ∧ (x <=? arrival)%num = true).
Proof.
  apply (customer_waits_iff_all_servers_busy (T := float)).
  - lia.
  - reflexivity.
  - reflexivity.
  - left. split; repeat constructor.
Defined.

(** The first [servers] customers never wait when no arrival time is
    negative, however many customers follow: each of them finds a server
    that has not been used, is logged with queue length 0 and gets the
    response time [(arrival + service) - arrival]. *)
Theorem first_customers_never_wait {T : Type} `{NumOrder T}
    (arrival_times service_times : list T) (servers total_customers : Z) :
  (1 ≤ servers)%Z →
  length arrival_times = Z.to_nat total_customers →
  length service_times = Z.to_nat total_customers →
  not_negative arrival_times →
  ∃ final,
    simulate arrival_times service_times servers total_customers = Return final ∧
    ∀ i arrival service,
      (Z.of_nat i < servers)%Z →
      arrival_times !! i = Some arrival → service_times !! i = Some service →
      queue_lengths final !! i = Some 0%Z ∧
      response_times final !! i = Some (arrival + service - arrival)%num.
Proof.
  intros Hk Hla Hls Hpos.
  destruct (run_trace arrival_times service_times servers total_customers)
    as (final & Hfinal & _ & Htrace); [done..|].
  exists final. split; [done|].
  intros i arrival service Hi Ha Hs.
  destruct (Htrace i arrival service Ha Hs)
    as (st & server & nft & Hst & _ & Hm & Hn & _ & Hq & Hr).
  assert ((arrival <? nft)%num = false) as Hserved.
  { destruct (idle_server_exists servers i st) as [j Hj];
      [by eapply after_idle_servers | done |].
    destruct (argmin_spec _ _ Hm) as (v & Hv & [Hnan | [_ (_ & Hmin & _)]]);
      assert (v = nft) as -> by congruence.
    - by apply num_nan_not_ltb.
    - apply num_leb_not_ltb.
      apply (num_leb_trans _ num_zero); [by eapply Hmin|].
      by eapply (Forall_lookup_1 _ _ _ _ Hpos). }
  by rewrite Hserved in Hq, Hr.
Qed.

Lemma first_customers_never_wait_witness :
  let arrival_times := [1; 1.5; 1.75; 2]%float in
  let service_times := [2; 2; 2; 2]%float in
  ∃ final,
    simulate arrival_times service_times 2 4 = Return final ∧
    ∀ i arrival service,
      (Z.of_nat i < 2)%Z →
      arrival_times !! i = Some arrival → service_times !! i = Some service →
      queue_lengths final !! i = Some 0%Z ∧
      response_times final !! i = Some (arrival + service - arrival)%num.
Proof.
  apply (first_customers_never_wait (T := float)).
  - lia.
  - reflexivity.
  - reflexivity.
  - repeat constructor.
Defined.

(** ** One server *)

(** With one server the pool is a single clock, and the loop is the
    recursion [departure = max(arrival, previous departure) + service]
    started at 0: customer [i] waits exactly when it arrives strictly
    before the departure of customer [i - 1], and its departure replaces
    that one. *)
Theorem single_server_departures {T : Type} `{Num T}
    (arrival_times service_times : list T) (total_customers : Z) :
  length arrival_times = Z.to_nat total_customers →
  length service_times = Z.to_nat total_customers →
  ∃ final,
    simulate arrival_times service_times 1 total_customers = Return final ∧
    ∀ i arrival service,
      arrival_times !! i = Some arrival → service_times !! i = Some service →
      ∃ st st' previous,
        after arrival_times service_times 1 i = Return st ∧
        departure_times st = [previous] ∧
        (i = 0 → previous = num_zero) ∧
        after arrival_times service_times 1 (S i) = Return st' ∧
        departure_times st' =
          [((if arrival <? previous then previous else arrival) + service)%num] ∧
        queue_lengths final !! i =
          Some (if (arrival <? previous)%num then 1%Z else 0%Z) ∧
        response_times final !! i =
          Some ((if arrival <? previous then previous else arrival)
                + service - arrival)%num.
Proof.
  intros Hla Hls.
  destruct (run_trace arrival_times service_times 1 total_customers)
    as (final & Hfinal & _ & Htrace); [done..|].
  exists final. split; [done|].
  intros i arrival service Ha Hs.
  destruct (Htrace i arrival service Ha Hs)
    as (st & server & nft & Hst & Hbet & Hm & Hn & Hst' & Hq & Hr).
  pose proof (between_servers _ _ _ Hbet) as Hlen.
  destruct (departure_times st) as [|previous [|? ?]] eqn:Hpool; try done.
  rewrite argmin_singleton in Hm. injection Hm as <-.
  injection Hn as ->.
  exists st, (served st 0 arrival service nft), nft.
  split; [done|]. split; [done|]. split.
  { intros ->. rewrite after_0 in Hst. injection Hst as <-.
    simpl in Hpool. by injection Hpool as ->. }
  split; [done|]. split; [by simpl; rewrite Hpool|]. done.
Qed.

Lemma single_server_departures_witness :
  let arrival_times := [1; 1.5; 4]%float in
  let service_times := [2; 0.5; 1]%float in
  ∃ final,
    simulate arrival_times service_times 1 3 = Return final ∧
    ∀ i arrival service,
      arrival_times !! i = Some arrival → service_times !! i = Some service →
      ∃ st st' previous,
        after arrival_times service_times 1 i = Return st ∧
        departure_times st = [previous] ∧
        (i = 0 → previous = num_zero) ∧
        after arrival_times service_times 1 (S i) = Return st' ∧
        departure_times st' =
          [((if arrival <? previous then previous else arrival) + service)%num] ∧
        queue_lengths final !! i =
          Some (if (arrival <? previous)%num then 1%Z else 0%Z) ∧
        response_times final !! i =
          Some ((if arrival <? previous then previous else arrival)
                + service - arrival)%num.
Proof.
  apply (single_server_departures (T := float)); reflexivity.
Defined.

(** ** The method, stage by stage *)

Section MethodStages.
Context {T : Type} `{Num T} {np : Numpy T}.
Local Open Scope num_scope.
Implicit Types (self : MMQueueSimulator T).



Lemma truediv_Return (a b x : T) :
  truediv a b = Return x ↔ (b =? num_zero) = false ∧ x = a / b.
Proof.
  unfold truediv. destruct (b =? num_zero); split.
  - done.
  - by intros [? _].
  - by intros [= <-].
  - by intros [_ ->].
Qed.




Lemma np_random_exponential_Return_iff (scale : T) (size : Z) g samples g' :
  np_random_exponential scale size g = (Return samples, g') ↔
  scale_accepted scale = true ∧ (0 ≤ size)%Z ∧
  exponential scale (Z.to_nat size) g = (samples, g').
Proof.
  unfold np_random_exponential, scale_accepted.
  destruct (negb (num_is_nan scale) && num_signbit scale); simpl.
  { split; [done | by intros [? _]]. }
  destruct (Z.ltb_spec size 0).
  { split; [done | intros (_ & ? & _); lia]. }
  destruct (exponential scale (Z.to_nat size) g) as [samples0 g0]. split.
  - intros [= <- <-]. done.
  - by intros (_ & _ & [= <- <-]).
Qed.


(** The loop on streams of [n] entries: it returns, unless there is a
    customer and no server. *)
Lemma simulate_cases (arrival_times service_times : list T) (k n : Z) :
  length arrival_times = Z.to_nat n →
  length service_times = Z.to_nat n →
  (∃ st, simulate arrival_times service_times k n = Return st ∧
         between k (Z.to_nat n) st ∧
         Forall (λ q, q = 0%Z ∨ q = 1%Z) (queue_lengths st) ∧
         ((1 ≤ k)%Z ∨ (n ≤ 0)%Z)) ∨
  simulate arrival_times service_times k n = Raise ValueError ∧
    (k < 1)%Z ∧ (1 ≤ n)%Z.
Proof.
  intros Hla Hls.
  destruct (decide (1 ≤ k)%Z) as [Hk | Hk].
  - left.
    destruct (run_trace arrival_times service_times k n)
      as (final & Hfinal & Hbet & Htrace); [done..|].
    exists final. split; [done|]. split; [done|]. split; [|by left].
    apply Forall_lookup. intros i q Hq.
    pose proof (lookup_lt_Some _ _ _ Hq) as Hi.
    rewrite (between_queue_lengths _ _ _ Hbet) in Hi.
    destruct (lookup_lt_is_Some_2 arrival_times i) as [arrival Ha]; [lia|].
    destruct (lookup_lt_is_Some_2 service_times i) as [service Hs]; [lia|].
    destruct (Htrace i arrival service Ha Hs)
      as (_ & _ & nft & _ & _ & _ & _ & _ & Hq' & _).
    rewrite Hq in Hq'. injection Hq' as ->.
    destruct (arrival <? nft); auto.
  - destruct (decide (1 ≤ n)%Z) as [Hn | Hn].
    + right. split; [|lia]. apply simulate_no_servers; [lia | done..].
    + left. exists (initial k).
      assert (Z.to_nat n = 0%nat) as -> by lia.
      unfold simulate. replace (Z.to_nat n) with 0%nat by lia.
      rewrite after_0. split; [done|]. split; [apply between_initial|].
      split; [constructor | right; lia].
Qed.

(** What a call that returns has gone through. *)
Lemma run_simulation_Return_inv self g metrics g' :
  honours_size np →
  run_simulation self g = (Return metrics, g') →
  let n := total_customers self in
  let first := exponential (num_one / arrival_rate self) (Z.to_nat n) (seed_state 42) in
  let second := exponential (num_one / service_rate self) (Z.to_nat n) first.2 in
  (arrival_rate self =? num_zero) = false ∧
  scale_accepted (num_one / arrival_rate self) = true ∧
  (service_rate self =? num_zero) = false ∧
  scale_accepted (num_one / service_rate self) = true ∧
  (0 ≤ n)%Z ∧
  ((1 ≤ servers self)%Z ∨ n = 0%Z) ∧
  ∃ st capacity,
    simulate (cumsum first.1) second.1 (servers self) n = Return st ∧
    between (servers self) (Z.to_nat n) st ∧
    Forall (λ q, q = 0%Z ∨ q = 1%Z) (queue_lengths st) ∧
    int_mul (servers self) (service_rate self) = Return capacity ∧
    (capacity =? num_zero) = false ∧
    metrics = {|
      average_queue_length := mean_int (queue_lengths st);
      average_response_time := mean (response_times st);
      server_utilization := arrival_rate self / capacity;
      metrics_queue_lengths := queue_lengths st
    |} ∧
    g' = second.2.
Proof.
  intros Hsize Hrun. unfold run_simulation in Hrun.
  apply rand_bind_Return in Hrun as (? & g0 & [= _ <-] & Hrun).
  apply rand_bind_Return in Hrun
    as (arrival_scale & g1 & [[Haz ->]%truediv_Return ->]%lift_Return & Hrun).
  apply rand_bind_Return in Hrun
    as (interarrival_times & g2 & (Hsa & Hn & Hfirst)%np_random_exponential_Return_iff & Hrun).
  apply rand_bind_Return in Hrun
    as (service_scale & g3 & [[Hsz ->]%truediv_Return ->]%lift_Return & Hrun).
  apply rand_bind_Return in Hrun
    as (service_times & g4 & (Hss & _ & Hsecond)%np_random_exponential_Return_iff & Hrun).
  apply rand_bind_Return in Hrun as (st & g5 & [Hloop ->]%lift_Return & Hrun).
  apply rand_bind_Return in Hrun as (capacity & g6 & [Hcap ->]%lift_Return & Hrun).
  apply rand_bind_Return in Hrun
    as (utilization & g7 & [[Hcz ->]%truediv_Return ->]%lift_Return & Hrun).
  apply lift_Return in Hrun as [[= <-] ->].
  simpl. rewrite Hfirst. simpl. rewrite Hsecond. simpl.
  do 5 (split; [done|]).
  pose proof (Hsize (num_one / arrival_rate self)
                (Z.to_nat (total_customers self)) (seed_state 42)) as Hlia.
  rewrite Hfirst in Hlia. simpl in Hlia.
  pose proof (Hsize (num_one / service_rate self)
                (Z.to_nat (total_customers self)) g2) as Hlst.
  rewrite Hsecond in Hlst. simpl in Hlst.
  destruct (simulate_cases (cumsum interarrival_times) service_times
              (servers self) (total_customers self))
    as [(st0 & Hst0 & Hbet & Hlog & Hk) | [Hraise _]];
    [by rewrite length_cumsum | done | | congruence].
  assert (st0 = st) as -> by congruence.
  split; [destruct Hk; [by left | right; lia]|].
  by exists st, capacity.
Qed.


End MethodStages.

(** A call that returns has drawn the interarrival times and then the
    service times, [total_customers] of each, from the generator seeded
    with 42, and has run the loop on them.  The dictionary it returns
    holds the queue-length log of that loop (one entry per customer, each
    0 or 1) and the two means taken over its logs, and numpy's global
    generator is left in the state after the second draw. *)
Theorem returned_metrics_describe_the_run {T : Type} `{Num T} {np : Numpy T}
    (self : MMQueueSimulator T) (g : rng) (metrics : Metrics T) (g' : rng) :
  honours_size np →
  run_simulation self g = (Return metrics, g') →
  let n := Z.to_nat (total_customers self) in
  let first := exponential (num_one / arrival_rate self)%num n (seed_state 42) in
  let second := exponential (num_one / service_rate self)%num n first.2 in
  ∃ st,
    simulate (cumsum first.1) second.1 (servers self) (total_customers self)
      = Return st ∧
    metrics_queue_lengths metrics = queue_lengths st ∧
    length (metrics_queue_lengths metrics) = n ∧
    Forall (λ q, q = 0%Z ∨ q = 1%Z) (metrics_queue_lengths metrics) ∧
    average_queue_length metrics = mean_int (metrics_queue_lengths metrics) ∧
    length (response_times st) = n ∧
    average_response_time metrics = mean (response_times st) ∧
    g' = second.2.
Proof.
  intros Hsize Hrun.
  destruct (run_simulation_Return_inv self g metrics g' Hsize Hrun)
    as (_ & _ & _ & _ & _ & _ & st & capacity & Hst & Hbet & Hlog & _ & _ & -> & ->).
  exists st. simpl. split; [done|]. split; [done|].
  split; [apply Hbet|]. split; [done|]. split; [done|].
  split; [apply Hbet|]. done.
Qed.

Lemma returned_metrics_describe_the_run_witness :
  let np := Replay.numpy [0.25; 1; 0.5; 2]%float in
  let self := init (T := float) 0.5%float 1%float 1 (Some 2%Z) in
  ∃ metrics g' st,
    run_simulation (np := np) self [] = (Return metrics, g') ∧
    simulate
      (cumsum (@exponential float np (num_one / arrival_rate self)%num 2
                 (seed_state 42)).1)
      (@exponential float np (num_one / service_rate self)%num 2
         (@exponential float np (num_one / arrival_rate self)%num 2
            (seed_state 42)).2).1
      1 2 = Return st ∧
    metrics_queue_lengths metrics = queue_lengths st ∧
    length (metrics_queue_lengths metrics) = 2 ∧
    Forall (λ q, q = 0%Z ∨ q = 1%Z) (metrics_queue_lengths metrics) ∧
    average_queue_length metrics = mean_int (metrics_queue_lengths metrics) ∧
    length (response_times st) = 2 ∧
    average_response_time metrics = mean (response_times st) ∧
    g' = [].
Proof.
  intros np self.
  destruct (run_simulation (np := np) self []) as [[metrics|e] g'] eqn:Hrun;
    [|vm_compute in Hrun; discriminate].
  destruct (returned_metrics_describe_the_run (np := np) self [] metrics g'
              (replay_honours_size _) Hrun)
    as (st & Hst & Hq & Hlq & Hlog & Havg & Hlr & Hmean & Hg).
  exists metrics, g', st. split; [done|]. split; [exact Hst|].
  split; [done|]. split; [exact Hlq|]. split; [done|]. split; [done|].
  split; [exact Hlr|]. split; [done|]. rewrite Hg. reflexivity.
Defined.





(** ** The scenario runner *)

Section ScenarioFacts.
Import Scenarios.
Context {np : Numpy float}.



End ScenarioFacts.


(** ** Runs on binary64

    Float literals are written in hexadecimal, as Python's [float.hex]
    prints them; the decimal literal is given alongside. *)

Module Binary64.

(** Two servers, five customers, all values exact in binary64: customers
    0 and 1 find a free server (server 0 first, on the tie at time 0),
    customers 2 and 4 wait. *)
Example two_servers_five_customers :
  simulate [1; 1.5; 1.75; 4; 4.25]%float [2; 2; 2; 0.5; 1]%float 2 5 =
  Return {|
    departure_times := [5; 5.5]%float;
    queue_length := 0;
    queue_lengths := [0; 0; 1; 0; 1]%Z;
    response_times := [2; 2; 3.25; 0.5; 1.25]%float
  |}.
Proof. vm_compute. reflexivity. Qed.

(** [np.argmin] on binary64: first of the smallest entries. *)
Example argmin_first_of_the_smallest :
  argmin [3; 0.5; 2; 0.5]%float = Return 1.
Proof. vm_compute. reflexivity. Qed.

(** A NaN counts as the smallest entry. *)
Example argmin_first_nan :
  argmin [3; nan; 0.5]%float = Return 1.
Proof. vm_compute. reflexivity. Qed.

(** Streams shorter than [total_customers]: IndexError at the first
    missing entry, after the earlier customers have been processed. *)
Example short_stream_raises :
  simulate [1; 1.5]%float [2]%float 1 2 = Raise IndexError.
Proof. vm_compute. reflexivity. Qed.

(** C2 fails for a customer count of 0: with arrival rate 0.5, service
    rate 1.0 and one server the call raises nothing and returns metrics
    (two NaN averages, utilization 0.5, an empty list of queue lengths). *)
Lemma zero_customers_are_not_rejected :
  (run_simulation (np := Replay.numpy [])
     (init (T := float) 0.5%float 1%float 1 (Some 0%Z)) []).1 =
  Return {|
    average_queue_length := nan;
    average_response_time := nan;
    server_utilization := 0.5%float;
    metrics_queue_lengths := []
  |}.
Proof. vm_compute. reflexivity. Qed.


(** C9 fails on binary64: a single customer arriving at 0.3 with service
    duration 0.6 is served on arrival, and its logged response time is
    [(0.3 + 0.6) - 0.3 = 0.5999999999999999], not 0.6. *)
Lemma single_customer_response_is_not_service :
  let arrival := 0x1.3333333333333p-2%float (* 0.3 *) in
  let service := 0x1.3333333333333p-1%float (* 0.6 *) in
  ∃ final responseTime,
    simulate [arrival] [service] 1 1 = Return final ∧
    queue_lengths final = [0%Z] ∧
    response_times final = [responseTime] ∧
    responseTime = 0x1.3333333333332p-1%float ∧
    (responseTime =? service)%num = false ∧
    responseTime ≠ service.
Proof.
  eexists _, _. split; [vm_compute; reflexivity|]. split; [reflexivity|].
  split; [reflexivity|]. split; [reflexivity|]. split; [vm_compute; reflexivity|].
  intros Heq.
  assert ((0x1.3333333333332p-1 =? 0x1.3333333333333p-1)%float = true) as Hb
    by (rewrite Heq; vm_compute; reflexivity).
  vm_compute in Hb. discriminate.
Qed.

End Binary64.

